(** * Proximity alarm: distance sampling, amplitude mapping and siren synthesis

    A shallow embedding of [ultrasound_proximity_alarm.py] (the alarm
    variant), of the measurement routine and the main loop of
    [ultrasound_led.py] (the simple variant) and of the blink loop of
    [led_blink.py].

    Numbers.  Python [int] values are [Z].  In [Alarm], [Led] and [Blink],
    which carry the control flow, the timing and the amplitude policy, a
    Python [float] is a real number and arithmetic is exact.  The
    synthesiser is embedded a second time, in [Siren], with the arithmetic
    numpy performs: binary64 and binary32 values are the real numbers of
    those formats, every operation is followed by rounding to nearest with
    ties to even, the array indices are 64-bit integers, and [np.sin] is a
    parameter of which only a bound and an accuracy are assumed.  Whatever
    is stated about the value of a sample or of the phase is stated of
    [Siren]; [Alarm.generate_siren_chunk] serves where only the branch
    taken, the number of samples and the sample counter matter.

    Hardware.  [GPIO.input(ECHO_PIN)] and [time.time()] are oracles: the
    [k]-th call of each returns the [k]-th element of a sequence chosen by
    the environment.  The hardware state counts the calls made so far and
    records the levels driven on the two output pins.

    Loops.  The busy-wait loops take a fuel argument bounding the number of
    iterations; running out of fuel is reported as such and is never a
    return value of the modelled function. *)

From Stdlib Require Import Reals Lra Lia ZArith List Bool.
Import ListNotations.
Open Scope R_scope.

(** ** Python and numpy primitives *)

Module Py.

(** [math.floor]. *)
Definition floor (x : R) : Z := (up x - 1)%Z.

(** [int(x)] on a float: truncation toward zero. *)
Definition int (x : R) : Z :=
  if Rle_dec 0 x then floor x else (- floor (- x))%Z.

(** Nearest integer, exact ties going to the even neighbour. *)
Definition round_half_even (x : R) : Z :=
  let f := floor x in
  let r := x - IZR f in
  if Rlt_dec r (1 / 2) then f
  else if Rlt_dec (1 / 2) r then (f + 1)%Z
  else if Z.even f then f else (f + 1)%Z.

(** [round(x, 2)]. *)
Definition round2 (x : R) : R := IZR (round_half_even (x * 100)) / 100.

(** [max(a, b)] and [min(a, b)] of two numbers. *)
Definition max (a b : R) : R := if Rlt_dec a b then b else a.
Definition min (a b : R) : R := if Rlt_dec b a then b else a.

(** Outcome of a call that may raise [IndexError]. *)
Inductive result (A : Type) : Type :=
| Ok (a : A)
| IndexError.
Arguments Ok {A} a.
Arguments IndexError {A}.

(** [arr[-1]]: the last element, [IndexError] on an empty array. *)
Fixpoint last_item (arr : list R) : result R :=
  match arr with
  | [] => IndexError
  | [x] => Ok x
  | _ :: arr' => last_item arr'
  end.

(** [np.zeros(n)]. *)
Definition np_zeros (n : nat) : list R := repeat 0 n.

(** [np.arange(n)]. *)
Definition np_arange (n : nat) : list Z := map Z.of_nat (seq 0 n).

(** [np.cumsum(a)]: running sums, accumulated from the left. *)
Fixpoint cumsum_from (acc : R) (a : list R) : list R :=
  match a with
  | [] => []
  | x :: a' => (acc + x) :: cumsum_from (acc + x) a'
  end.

Definition np_cumsum (a : list R) : list R :=
  match a with
  | [] => []
  | x :: a' => x :: cumsum_from x a'
  end.

End Py.

(** ** The hardware seen by the programs *)

(** [GPIO.LOW] and [GPIO.HIGH]. *)
Inductive level : Type := LOW | HIGH.

Definition level_eqb (a b : level) : bool :=
  match a, b with
  | LOW, LOW | HIGH, HIGH => true
  | _, _ => false
  end.

(** What the environment answers: the echo pin as read by the [k]-th
    [GPIO.input(ECHO_PIN)], the clock as read by the [k]-th [time.time()]. *)
Record Env : Type := {
  echo_pin : nat -> level;
  clock : nat -> R
}.

(** Calls made so far and levels last driven on the outputs. *)
Record Hw : Type := {
  reads : nat;
  ticks : nat;
  trigger_pin : level;
  led_pin : level
}.

(** [GPIO.input(ECHO_PIN)]. *)
Definition GPIO_input_echo (env : Env) (hw : Hw) : level * Hw :=
  (echo_pin env (reads hw),
   {| reads := S (reads hw); ticks := ticks hw;
      trigger_pin := trigger_pin hw; led_pin := led_pin hw |}).

(** [time.time()]. *)
Definition time_time (env : Env) (hw : Hw) : R * Hw :=
  (clock env (ticks hw),
   {| reads := reads hw; ticks := S (ticks hw);
      trigger_pin := trigger_pin hw; led_pin := led_pin hw |}).

(** [GPIO.output(TRIGGER_PIN, v)] and [GPIO.output(LED_PIN, v)]. *)
Definition GPIO_output_trigger (v : level) (hw : Hw) : Hw :=
  {| reads := reads hw; ticks := ticks hw;
     trigger_pin := v; led_pin := led_pin hw |}.

Definition GPIO_output_led (v : level) (hw : Hw) : Hw :=
  {| reads := reads hw; ticks := ticks hw;
     trigger_pin := trigger_pin hw; led_pin := v |}.

(** [time.sleep(d)]: the passing of time shows only in later clock
    readings, which the environment chooses. *)
Definition time_sleep (d : R) (hw : Hw) : Hw := hw.

(** The single trigger pulse that starts a measurement. *)
Definition trigger_pulse (hw : Hw) : Hw :=
  let hw := GPIO_output_trigger LOW hw in
  let hw := time_sleep 0.00001 hw in
  let hw := GPIO_output_trigger HIGH hw in
  let hw := time_sleep 0.00001 hw in
  GPIO_output_trigger LOW hw.

(** A call of a function with busy-wait loops either returns or is still
    spinning when the fuel is spent. *)
Inductive outcome (A : Type) : Type :=
| Returned (a : A)
| Spinning.
Arguments Returned {A} a.
Arguments Spinning {A}.

(** The clock gets past every instant, however late one starts looking. *)
Definition clock_advances (env : Env) : Prop :=
  forall (n : nat) (bound : R), exists k, (n <= k)%nat /\ clock env k > bound.

(** The echo pin is stuck at one level. *)
Definition echo_stuck (env : Env) (v : level) : Prop :=
  forall k, echo_pin env k = v.

(** The deadline of a measurement started in [hw]: 20 ms after the clock
    reading taken once the trigger pulse is out. *)
Definition deadline (env : Env) (hw : Hw) : R := clock env (ticks hw) + 0.02.

(** A wait loop polls in lockstep: its [j]-th pass reads the pin and then
    the clock.  For a loop entered at read [r] and tick [t], the pin is
    held at [v] past the deadline when it still reads [v] on pass [d], whose
    clock reading is the one found past the deadline. *)
Definition held_past (env : Env) (v : level) (timeout : R) (r t d : nat)
  : Prop :=
  (forall j, (j <= d)%nat -> echo_pin env (r + j) = v) /\
  clock env (t + d) > timeout.

(** The echo does not rise before the deadline of a measurement started
    in [hw]. *)
Definition rise_misses_deadline (env : Env) (hw : Hw) : Prop :=
  exists d, held_past env LOW (deadline env hw) (reads hw) (S (ticks hw)) d.

(** The echo rises on the [n]-th read of that measurement but does not
    fall before the deadline. *)
Definition fall_misses_deadline (env : Env) (hw : Hw) : Prop :=
  exists n d,
    (forall j, (j < n)%nat -> echo_pin env (reads hw + j) = LOW) /\
    echo_pin env (reads hw + n) = HIGH /\
    held_past env HIGH (deadline env hw)
      (reads hw + n + 1) (S (ticks hw) + n + 1) d.

(** ** The alarm variant: [ultrasound_proximity_alarm.py] *)

Module Alarm.

(** Distance settings (cm). *)
Definition DISTANCE_THRESHOLD_CM : Z := 50.
Definition MIN_VALID_DISTANCE_CM : Z := 2.
Definition MAX_VALID_DISTANCE_CM : Z := 400.

(** Audio settings. *)
Definition SAMPLE_RATE : Z := 44100.
Definition SIREN_FREQ_LOW : Z := 800.
Definition SIREN_FREQ_HIGH : Z := 1100.
Definition SIREN_CYCLE_SEC : R := 0.4.
Definition CHUNK_SIZE : nat := 1024.
Definition MAX_AMPLITUDE : R := 0.4.

(** The module-level variables shared by the two threads.  Each access is
    made under [_amplitude_lock], so a read sees one whole written value. *)
Record Globals : Type := {
  _amplitude : R;
  _stop_audio : bool
}.

(** *** [measure_distance_cm] *)

(** How one of the two echo-wait loops ends: the pin left the level waited
    on, the deadline check fired, or the loop is still polling. *)
Inductive wait : Type :=
| Edge (hw : Hw)
| Deadline (hw : Hw)
| Polling.

(** [while GPIO.input(ECHO_PIN) == v: if time.time() > timeout: return ...] *)
Fixpoint wait_echo (env : Env) (timeout : R) (v : level)
  (fuel : nat) (hw : Hw) : wait :=
  match fuel with
  | O => Polling
  | S fuel' =>
      let (e, hw1) := GPIO_input_echo env hw in
      if level_eqb e v then
        let (now, hw2) := time_time env hw1 in
        if Rgt_dec now timeout then Deadline hw2
        else wait_echo env timeout v fuel' hw2
      else Edge hw1
  end.

Definition measure_distance_cm (env : Env) (fuel : nat) (hw : Hw)
  : outcome (R * Hw) :=
  let hw := trigger_pulse hw in
  let (t0, hw) := time_time env hw in
  let timeout := t0 + 0.02 in
  match wait_echo env timeout LOW fuel hw with
  | Polling => Spinning
  | Deadline hw => Returned (IZR MAX_VALID_DISTANCE_CM, hw)
  | Edge hw =>
      let (pulse_start, hw) := time_time env hw in
      match wait_echo env timeout HIGH fuel hw with
      | Polling => Spinning
      | Deadline hw => Returned (IZR MAX_VALID_DISTANCE_CM, hw)
      | Edge hw =>
          let (pulse_end, hw) := time_time env hw in
          let pulse_duration := pulse_end - pulse_start in
          let distance_cm := pulse_duration * 17150 in
          Returned
            (Py.max (IZR MIN_VALID_DISTANCE_CM)
               (Py.min (IZR MAX_VALID_DISTANCE_CM) (Py.round2 distance_cm)),
             hw)
      end
  end.

(** *** [distance_to_amplitude] *)

Definition distance_to_amplitude (distance_cm : R) : R :=
  if Rgt_dec distance_cm (IZR DISTANCE_THRESHOLD_CM) then 0
  else
    let fraction := 1 - distance_cm / IZR DISTANCE_THRESHOLD_CM in
    MAX_AMPLITUDE * fraction.

(** *** [generate_siren_chunk] *)

(** [state_ref]: the list [[phase_radians, sample_counter]]. *)
Record SynthState : Type := {
  phase : R;
  sample_cnt : Z
}.

Definition half_cycle_samples : Z :=
  Py.int (IZR SAMPLE_RATE * SIREN_CYCLE_SEC / 2).

Definition cycle_len : Z := 2 * half_cycle_samples.

(** [np.arange(num_samples) + sample_cnt]. *)
Definition indices (sample_cnt : Z) (num_samples : nat) : list Z :=
  map (fun i => (i + sample_cnt)%Z) (Py.np_arange num_samples).

(** One entry of [np.where(cycle_pos < half_cycle_samples, LOW, HIGH)]. *)
Definition freq_at (index : Z) : Z :=
  let cycle_pos := (index mod cycle_len)%Z in
  if (cycle_pos <? half_cycle_samples)%Z then SIREN_FREQ_LOW
  else SIREN_FREQ_HIGH.

(** One entry of [2 * np.pi * freq / SAMPLE_RATE]. *)
Definition phase_delta (index : Z) : R :=
  2 * PI * IZR (freq_at index) / IZR SAMPLE_RATE.

(** [np.cumsum(phase_deltas) + phase]. *)
Definition phase_array (phase : R) (sample_cnt : Z) (num_samples : nat)
  : list R :=
  let phase_deltas := map phase_delta (indices sample_cnt num_samples) in
  map (fun s => s + phase) (Py.np_cumsum phase_deltas).

(** The value returned: [(samples, phase, sample_counter)]. *)
Definition chunk : Type := (list R * R * Z)%type.

(** The call returns its chunk together with [state_ref] as it leaves it;
    when it raises, [state_ref] has not been assigned to.  The arithmetic
    of the voiced branch is exact here; [Siren.generate_siren_chunk]
    has it as numpy performs it. *)
Definition generate_siren_chunk (g : Globals) (state_ref : SynthState)
  (num_samples : nat) : Py.result (chunk * SynthState) :=
  let amp := _amplitude g in
  let phase := phase state_ref in
  let sample_cnt := sample_cnt state_ref in
  if Rle_dec amp 0 then
    let new_cnt := (sample_cnt + Z.of_nat num_samples)%Z in
    Py.Ok ((Py.np_zeros num_samples, phase, new_cnt),
           {| phase := phase; sample_cnt := new_cnt |})
  else
    let phase_arr := phase_array phase sample_cnt num_samples in
    match Py.last_item phase_arr with
    | Py.IndexError => Py.IndexError
    | Py.Ok new_phase =>
        let new_sample_cnt := (sample_cnt + Z.of_nat num_samples)%Z in
        let samples := map (fun p => amp * sin p) phase_arr in
        Py.Ok ((samples, new_phase, new_sample_cnt),
               {| phase := new_phase; sample_cnt := new_sample_cnt |})
    end.

(** *** [audio_thread_entry] *)

(** How the loop of the audio thread stands after the observations given
    to it: it left through its [while] test, an exception ended it, or it
    is about to test the flag again. *)
Inductive loop_status : Type := Exited | Failed | Running.

(** [while not _stop_audio: chunk = generate_siren_chunk(state, CHUNK_SIZE);
    stream.write(chunk)].  [seen] lists the shared variables as the thread
    finds them on its successive iterations; [sink] collects what was
    written to the stream. *)
Fixpoint audio_loop (seen : list Globals) (state : SynthState)
  (sink : list (list R)) : loop_status * SynthState * list (list R) :=
  match seen with
  | [] => (Running, state, sink)
  | g :: seen' =>
      if _stop_audio g then (Exited, state, sink)
      else
        match generate_siren_chunk g state CHUNK_SIZE with
        | Py.IndexError => (Failed, state, sink)
        | Py.Ok ((samples, _, _), state') =>
            audio_loop seen' state' (sink ++ [samples])
        end
  end.

Definition audio_thread_entry (seen : list Globals)
  : loop_status * SynthState * list (list R) :=
  audio_loop seen {| phase := 0; sample_cnt := 0 |} [].

(** *** [main] *)

(** The shared variables and the hardware, as the main thread has them. *)
Record Machine : Type := {
  globals : Globals;
  hw : Hw
}.

Definition initial : Machine :=
  {| globals := {| _amplitude := 0; _stop_audio := false |};
     hw := {| reads := 0; ticks := 0; trigger_pin := LOW; led_pin := LOW |} |}.

(** One pass through the body of [while True]. *)
Definition control_iteration (env : Env) (fuel : nat) (m : Machine)
  : outcome Machine :=
  match measure_distance_cm env fuel (hw m) with
  | Spinning => Spinning
  | Returned (distance, hw1) =>
      let amp := distance_to_amplitude distance in
      let g := {| _amplitude := amp; _stop_audio := _stop_audio (globals m) |} in
      let hw2 :=
        if Rle_dec distance (IZR DISTANCE_THRESHOLD_CM)
        then GPIO_output_led HIGH hw1
        else GPIO_output_led LOW hw1 in
      Returned {| globals := g; hw := time_sleep 0.08 hw2 |}
  end.

(** [n] passes of the loop, none of them interrupted. *)
Fixpoint control_loop (env : Env) (fuel : nat) (n : nat) (m : Machine)
  : outcome Machine :=
  match n with
  | O => Returned m
  | S n' =>
      match control_iteration env fuel m with
      | Spinning => Spinning
      | Returned m' => control_loop env fuel n' m'
      end
  end.

(** The [finally] block: set the stop flag, force the LED off. *)
Definition finally (m : Machine) : Machine :=
  let g := {| _amplitude := _amplitude (globals m); _stop_audio := true |} in
  let hw1 := time_sleep 0.2 (hw m) in
  {| globals := g; hw := GPIO_output_led LOW hw1 |}.

(** [main] when [KeyboardInterrupt] arrives after [n] passes of the loop. *)
Definition main (env : Env) (fuel : nat) (n : nat) : outcome Machine :=
  match control_loop env fuel n initial with
  | Spinning => Spinning
  | Returned m => Returned (finally m)
  end.

End Alarm.

(** ** The simple variant: [ultrasound_led.py] *)

Module Led.

Definition DISTANCE_THRESHOLD_CM : Z := 50.

(** [while GPIO.input(ECHO_PIN) == v: pass] *)
Fixpoint wait_echo (env : Env) (v : level) (fuel : nat) (hw : Hw)
  : option Hw :=
  match fuel with
  | O => None
  | S fuel' =>
      let (e, hw1) := GPIO_input_echo env hw in
      if level_eqb e v then wait_echo env v fuel' hw1
      else Some hw1
  end.

Definition measure_distance_cm (env : Env) (fuel : nat) (hw : Hw)
  : outcome (R * Hw) :=
  let hw := trigger_pulse hw in
  match wait_echo env LOW fuel hw with
  | None => Spinning
  | Some hw =>
      let (pulse_start, hw) := time_time env hw in
      match wait_echo env HIGH fuel hw with
      | None => Spinning
      | Some hw =>
          let (pulse_end, hw) := time_time env hw in
          let pulse_duration := pulse_end - pulse_start in
          let distance_cm := pulse_duration * 17150 in
          Returned (Py.round2 distance_cm, hw)
      end
  end.

(** *** [main] *)

(** One pass through the body of [while True]: measure, then drive the
    LED by the threshold. *)
Definition control_iteration (env : Env) (fuel : nat) (hw : Hw)
  : outcome (R * Hw) :=
  match measure_distance_cm env fuel hw with
  | Spinning => Spinning
  | Returned (distance, hw1) =>
      let hw2 :=
        if Rle_dec distance (IZR DISTANCE_THRESHOLD_CM)
        then GPIO_output_led HIGH hw1
        else GPIO_output_led LOW hw1 in
      Returned (distance, time_sleep 0.1 hw2)
  end.

(** [n] passes of the loop, none of them interrupted. *)
Fixpoint control_loop (env : Env) (fuel : nat) (n : nat) (hw : Hw)
  : outcome Hw :=
  match n with
  | O => Returned hw
  | S n' =>
      match control_iteration env fuel hw with
      | Spinning => Spinning
      | Returned (_, hw') => control_loop env fuel n' hw'
      end
  end.

(** The [finally] block. *)
Definition finally (hw : Hw) : Hw := GPIO_output_led LOW hw.

(** [main] when [KeyboardInterrupt] arrives after [n] passes of the loop. *)
Definition main (env : Env) (fuel : nat) (n : nat) (hw : Hw) : outcome Hw :=
  match control_loop env fuel n hw with
  | Spinning => Spinning
  | Returned hw' => Returned (finally hw')
  end.

End Led.

(** ** The blinker: [led_blink.py] *)

Module Blink.

(** The program looks at [stop_event] three times per pass: [is_set()] in
    the [while] test, then the two [wait] calls, each returning whether the
    event is set.  [event k] is what the [k]-th look finds.  The state is
    the number of looks made and the levels written to the LED so far,
    oldest first. *)
Inductive blink_outcome : Type :=
| Stopped (looks : nat) (written : list level)
| Blinking.

Fixpoint blink_loop (event : nat -> bool) (fuel : nat) (looks : nat)
  (written : list level) : blink_outcome :=
  match fuel with
  | O => Blinking
  | S fuel' =>
      if event looks then Stopped (S looks) written
      else
        let written := written ++ [HIGH] in
        if event (S looks) then Stopped (S (S looks)) written
        else
          let written := written ++ [LOW] in
          if event (S (S looks)) then Stopped (S (S (S looks))) written
          else blink_loop event fuel' (S (S (S looks))) written
  end.

(** The [try] statement: the loop, then [GPIO.output(LED_PIN, GPIO.LOW)]
    in the [finally] block. *)
Definition blink (event : nat -> bool) (fuel : nat) : blink_outcome :=
  match blink_loop event fuel 0 [] with
  | Blinking => Blinking
  | Stopped looks written => Stopped looks (written ++ [LOW])
  end.

End Blink.

(** ** Binary floating point *)

Module Fp.

(** [2^e]. *)
Definition bpow (e : Z) : R := powerRZ 2 e.

(** The magnitude of a non-zero [x]: the [e] with [2^(e-1) <= |x| < 2^e]. *)
Definition mag (x : R) : Z := (Py.floor (ln (Rabs x) / ln 2) + 1)%Z.

(** A format keeps [prec] significant bits and has [2^emin] as its
    smallest positive number.  Results too large for the format, which
    IEEE 754 turns into infinities, are not modelled: the synthesiser adds
    increments below [1/4] to the phase it is given and multiplies numbers
    below [1]. *)
Record format : Type := {
  prec : Z;
  emin : Z
}.

(** The exponent of the last bit kept for [x]. *)
Definition cexp (f : format) (x : R) : Z := Z.max (mag x - prec f) (emin f).

(** Rounding to the nearest number of the format, a tie going to the even
    significand. *)
Definition round (f : format) (x : R) : R :=
  let e := cexp f x in
  IZR (Py.round_half_even (x * bpow (- e))) * bpow e.

Definition binary64 : format := {| prec := 53; emin := -1074 |}.
Definition binary32 : format := {| prec := 24; emin := -149 |}.

End Fp.

(** ** The arithmetic of Python floats and numpy arrays *)

Module Np.

(** The result of an operation on Python floats or on a [float64] array,
    and of one on a [float32] array; [astype(np.float32)] is [float32]. *)
Definition float64 (x : R) : R := Fp.round Fp.binary64 x.
Definition float32 (x : R) : R := Fp.round Fp.binary32 x.

(** [np.pi], the binary64 number nearest to the real one. *)
Definition pi : R := 884279719003555 / 281474976710656.

(** [int64], the integer type of [np.arange(n)] on a 64-bit platform. *)
Definition int64_min : Z := - 2 ^ 63.
Definition int64_max : Z := 2 ^ 63 - 1.

Definition fits_int64 (z : Z) : bool :=
  ((int64_min <=? z) && (z <=? int64_max))%Z.

(** The sum of two [int64] wraps around. *)
Definition wrap_int64 (z : Z) : Z := ((z + 2 ^ 63) mod 2 ^ 64 - 2 ^ 63)%Z.

(** Outcome of a call that may raise [IndexError] or [OverflowError]. *)
Inductive result (A : Type) : Type :=
| Ok (a : A)
| IndexError
| OverflowError.
Arguments Ok {A} a.
Arguments IndexError {A}.
Arguments OverflowError {A}.

(** [np.cumsum(a)] on a [float64] array: each running sum is rounded
    before the next element is added to it. *)
Fixpoint cumsum_from (acc : R) (a : list R) : list R :=
  match a with
  | [] => []
  | x :: a' => let s := float64 (acc + x) in s :: cumsum_from s a'
  end.

Definition cumsum (a : list R) : list R :=
  match a with
  | [] => []
  | x :: a' => x :: cumsum_from x a'
  end.

End Np.

(** ** The synthesiser as numpy computes it *)

Module Siren.

(** The float literals [0.4] of the module: the binary64 number nearest
    to [0.4]. *)
Definition SIREN_CYCLE_SEC : R := Np.float64 0.4.
Definition MAX_AMPLITUDE : R := Np.float64 0.4.

(** [int(SAMPLE_RATE * SIREN_CYCLE_SEC / 2)]. *)
Definition half_cycle_samples : Z :=
  Py.int (Np.float64
            (Np.float64 (IZR Alarm.SAMPLE_RATE * SIREN_CYCLE_SEC) / 2)).

Definition cycle_len : Z := 2 * half_cycle_samples.

(** [np.arange(num_samples) + sample_cnt]: the Python integer
    [sample_cnt] has to fit in [int64], or the addition raises
    [OverflowError]; the sums themselves wrap around. *)
Definition indices (sample_cnt : Z) (num_samples : nat)
  : Np.result (list Z) :=
  if Np.fits_int64 sample_cnt then
    Np.Ok (map (fun i => Np.wrap_int64 (i + sample_cnt))
             (Py.np_arange num_samples))
  else Np.OverflowError.

(** One entry of [np.where(indices % cycle_len < half_cycle_samples,
    SIREN_FREQ_LOW, SIREN_FREQ_HIGH)]. *)
Definition freq_at (index : Z) : Z :=
  let cycle_pos := (index mod cycle_len)%Z in
  if (cycle_pos <? half_cycle_samples)%Z then Alarm.SIREN_FREQ_LOW
  else Alarm.SIREN_FREQ_HIGH.

(** One entry of [2 * np.pi * freq / SAMPLE_RATE]: the product
    [2 * np.pi] of Python floats, its product with the frequency, and the
    quotient, each one rounded. *)
Definition phase_delta (index : Z) : R :=
  Np.float64
    (Np.float64 (Np.float64 (2 * Np.pi) * IZR (freq_at index))
     / IZR Alarm.SAMPLE_RATE).

(** [np.cumsum(phase_deltas) + phase]. *)
Definition phase_array (phase : R) (idx : list Z) : list R :=
  map (fun s => Np.float64 (s + phase)) (Np.cumsum (map phase_delta idx)).

Section Sine.

(** [np.sin] on one [float64]. *)
Variable np_sin : R -> R.

(** [amp * np.sin(phase_arr).astype(np.float32)]: the sine is cast to
    [float32], and so is the Python float [amp] when it meets the
    [float32] array; the product is a [float32].  The call
    either returns its chunk together with [state_ref] as it leaves it, or
    raises before [state_ref] has been assigned to. *)
Definition generate_siren_chunk (g : Alarm.Globals)
  (state_ref : Alarm.SynthState) (num_samples : nat)
  : Np.result (Alarm.chunk * Alarm.SynthState) :=
  let amp := Alarm._amplitude g in
  let phase := Alarm.phase state_ref in
  let sample_cnt := Alarm.sample_cnt state_ref in
  if Rle_dec amp 0 then
    let new_cnt := (sample_cnt + Z.of_nat num_samples)%Z in
    Np.Ok ((Py.np_zeros num_samples, phase, new_cnt),
           {| Alarm.phase := phase; Alarm.sample_cnt := new_cnt |})
  else
    match indices sample_cnt num_samples with
    | Np.OverflowError => Np.OverflowError
    | Np.IndexError => Np.IndexError
    | Np.Ok idx =>
        let phase_arr := phase_array phase idx in
        match Py.last_item phase_arr with
        | Py.IndexError => Np.IndexError
        | Py.Ok new_phase =>
            let new_sample_cnt := (sample_cnt + Z.of_nat num_samples)%Z in
            let samples :=
              map (fun p =>
                     Np.float32 (Np.float32 amp * Np.float32 (np_sin p)))
                phase_arr in
            Np.Ok ((samples, new_phase, new_sample_cnt),
                   {| Alarm.phase := new_phase;
                      Alarm.sample_cnt := new_sample_cnt |})
        end
    end.

(** [n] consecutive calls on one [state_ref] under the same shared
    amplitude; the sample arrays are concatenated in call order. *)
Fixpoint generate_chunks (g : Alarm.Globals) (state_ref : Alarm.SynthState)
  (n num_samples : nat) : Np.result (list R * Alarm.SynthState) :=
  match n with
  | O => Np.Ok ([], state_ref)
  | S n' =>
      match generate_siren_chunk g state_ref num_samples with
      | Np.OverflowError => Np.OverflowError
      | Np.IndexError => Np.IndexError
      | Np.Ok ((samples, _, _), state_ref') =>
          match generate_chunks g state_ref' n' num_samples with
          | Np.OverflowError => Np.OverflowError
          | Np.IndexError => Np.IndexError
          | Np.Ok (rest, final) => Np.Ok (samples ++ rest, final)
          end
      end
  end.

(** The loop of [audio_thread_entry]; an exception raised in it leaves
    the loop for the [except] clause. *)
Fixpoint audio_loop (seen : list Alarm.Globals) (state : Alarm.SynthState)
  (sink : list (list R))
  : Alarm.loop_status * Alarm.SynthState * list (list R) :=
  match seen with
  | [] => (Alarm.Running, state, sink)
  | g :: seen' =>
      if Alarm._stop_audio g then (Alarm.Exited, state, sink)
      else
        match generate_siren_chunk g state Alarm.CHUNK_SIZE with
        | Np.Ok ((samples, _, _), state') =>
            audio_loop seen' state' (sink ++ [samples])
        | Np.IndexError | Np.OverflowError => (Alarm.Failed, state, sink)
        end
  end.

Definition audio_thread_entry (seen : list Alarm.Globals)
  : Alarm.loop_status * Alarm.SynthState * list (list R) :=
  audio_loop seen {| Alarm.phase := 0; Alarm.sample_cnt := 0 |} [].

End Sine.

End Siren.

(** ** Auxiliary definitions for the proofs *)

(** The phase array of [Alarm], in exact arithmetic, written as a
    recurrence: each entry is the previous one plus the increment of its
    sample, the first one starting from the phase carried in [state_ref]. *)
Fixpoint phases (p : R) (c : Z) (n : nat) : list R :=
  match n with
  | O => []
  | S n' =>
      let p' := p + Alarm.phase_delta c in
      p' :: phases p' (c + 1)%Z n'
  end.

(** The phase reached after [n] samples. *)
Definition end_phase (p : R) (c : Z) (n : nat) : R := last (phases p c n) p.

(** What a call computes, branch by branch, as a total function: the
    samples and the state left behind. *)
Definition synthesize (g : Alarm.Globals) (st : Alarm.SynthState) (n : nat)
  : list R * Alarm.SynthState :=
  let amp := Alarm._amplitude g in
  let p := Alarm.phase st in
  let c := Alarm.sample_cnt st in
  if Rle_dec amp 0 then
    (repeat 0 n, {| Alarm.phase := p; Alarm.sample_cnt := c + Z.of_nat n |})
  else
    (map (fun q => amp * sin q) (phases p c n),
     {| Alarm.phase := end_phase p c n; Alarm.sample_cnt := c + Z.of_nat n |}).

(** *** Environments and states to run the programs in *)

(** Nothing in range: the echo pin never rises; the clock is read once per
    millisecond. *)
Definition empty_room : Env :=
  {| echo_pin := fun _ => LOW;
     clock := fun k => IZR (Z.of_nat k) / 1000 |}.

(** An echo pulse seen on the second read and gone on the third, with the
    clock read once per [period] seconds. *)
Definition echo_pulse (period : R) : Env :=
  {| echo_pin := fun k => match k with 1%nat => HIGH | _ => LOW end;
     clock := fun k => IZR (Z.of_nat k) * period |}.

(** The hardware as the programs find it. *)
Definition power_on : Hw :=
  {| reads := 0; ticks := 0; trigger_pin := LOW; led_pin := LOW |}.

(** The shared variables with the siren muted, and the synthesiser state
    the audio thread starts from. *)
Definition muted : Alarm.Globals :=
  {| Alarm._amplitude := 0; Alarm._stop_audio := false |}.

Definition fresh : Alarm.SynthState :=
  {| Alarm.phase := 0; Alarm.sample_cnt := 0 |}.

(** The reading under which both loops watch the stop flag: a pass of
    either loop that finds the flag set does nothing but leave the loop. *)
Definition audio_loop_polls_stop_flag : Prop :=
  forall g seen st sink,
    Alarm._stop_audio g = true ->
    Alarm.audio_loop (g :: seen) st sink = (Alarm.Exited, st, sink).

Definition control_loop_polls_stop_flag : Prop :=
  forall env fuel n m,
    Alarm._stop_audio (Alarm.globals m) = true ->
    Alarm.control_loop env fuel n m = Returned m.

(** The machine as the [finally] block leaves it when it runs first. *)
Definition stopped : Alarm.Machine := Alarm.finally Alarm.initial.

(** A whole echo pulse seen in time by a measurement of the alarm variant
    started in [hw]: the pin reads [LOW] on the first [n] reads, [HIGH] on
    the next [k + 1] and [LOW] on the one after, and none of the clock
    readings checked meanwhile is past the deadline. *)
Definition pulse_seen (env : Env) (hw : Hw) (n k : nat) : Prop :=
  (forall j, (j < n)%nat ->
     echo_pin env (reads hw + j) = LOW /\
     ~ clock env (S (ticks hw) + j) > deadline env hw) /\
  echo_pin env (reads hw + n) = HIGH /\
  (forall j, (j < k)%nat ->
     echo_pin env (reads hw + n + 1 + j) = HIGH /\
     ~ clock env (S (ticks hw) + n + 1 + j) > deadline env hw) /\
  echo_pin env (reads hw + n + 1 + k) = LOW.

(** The distance before rounding and clamping: the time between the two
    clock readings taken after the edges, at 17150 cm per second. *)
Definition raw_distance (env : Env) (hw : Hw) (n k : nat) : R :=
  (clock env (S (ticks hw) + n + 1 + k) - clock env (S (ticks hw) + n)) * 17150.

(** The first [n] levels of HIGH, LOW, HIGH, LOW, ... *)
Fixpoint alternation (n : nat) : list level :=
  match n with
  | O => []
  | S O => [HIGH]
  | S (S n') => HIGH :: LOW :: alternation n'
  end.

(** The passes the audio loop makes on the observations [seen]: one per
    observation with the flag clear, up to the first with it set. *)
Fixpoint passes (seen : list Alarm.Globals) : nat :=
  match seen with
  | [] => O
  | g :: seen' => if Alarm._stop_audio g then O else S (passes seen')
  end.

(** An echo that is high from the first read and found low on the third,
    the clock passing the deadline between the last check, at 19.9 ms,
    and the stamp of the falling edge, at 20.7 ms. *)
Definition late_echo : Env :=
  {| echo_pin := fun k => match k with 0%nat | 1%nat => HIGH | _ => LOW end;
     clock := fun k =>
       match k with
       | 0%nat => 0
       | 1%nat => 0.0005
       | 2%nat => 0.0199
       | _ => 0.0207
       end |}.

(** The machine with the stop flag set to [b], and a function applied to
    what a call returns. *)
Definition with_stop_flag (b : bool) (m : Alarm.Machine) : Alarm.Machine :=
  {| Alarm.globals :=
       {| Alarm._amplitude := Alarm._amplitude (Alarm.globals m);
          Alarm._stop_audio := b |};
     Alarm.hw := Alarm.hw m |}.

Definition outcome_map {A B : Type} (f : A -> B) (o : outcome A)
  : outcome B :=
  match o with
  | Returned a => Returned (f a)
  | Spinning => Spinning
  end.

(** *** The synthesiser in binary arithmetic *)

(** What is assumed of [np.sin]: it stays within [[-1, 1]], and it is
    within [eps] of the sine. *)
Definition sine_bounded (np_sin : R -> R) : Prop :=
  forall x, Rabs (np_sin x) <= 1.

Definition sine_accurate (np_sin : R -> R) (eps : R) : Prop :=
  forall x, Rabs (np_sin x - sin x) <= eps.

(** The correctly rounded sine, one routine meeting both. *)
Definition rounded_sin (x : R) : R := Np.float64 (sin x).

(** The phase increments of the two tones, as binary64 has them:
    0.11398068584452764 and 0.1567234430362255. *)
Definition delta_low : R := 2053293497187393 / 18014398509481984.
Definition delta_high : R := 5646557117265331 / 36028797018963968.

(** Entry [k] of the running sums of a chunk that starts at position [c]. *)
Fixpoint partial_sum (c : Z) (k : nat) : R :=
  match k with
  | O => Siren.phase_delta c
  | S k' =>
      Np.float64 (partial_sum c k' + Siren.phase_delta (c + Z.of_nat k))
  end.

(** The phase array of a chunk of [n] samples entered with phase [p] at
    position [c]. *)
Definition chunk_phases (p : R) (c : Z) (n : nat) : list R :=
  map (fun k => Np.float64 (partial_sum c k + p)) (seq 0 n).

(** The phases of [n] consecutive chunks of [len] samples, and the phase
    the last one leaves. *)
Fixpoint chunks_phases (p : R) (c : Z) (n len : nat) : list R * R :=
  match n with
  | O => ([], p)
  | S n' =>
      let p' := Np.float64 (partial_sum c (pred len) + p) in
      let (rest, final) := chunks_phases p' (c + Z.of_nat len) n' len in
      (chunk_phases p c len ++ rest, final)
  end.

(** The sample at phase [p]. *)
Definition sample (np_sin : R -> R) (amp p : R) : R :=
  Np.float32 (Np.float32 amp * Np.float32 (np_sin p)).

(** The phase advance over [t] samples from position [c] when the
    increments are added without rounding, and the phase [ideal p0 c0 t]
    then reached from [p0]. *)
Fixpoint advance (c : Z) (t : nat) : R :=
  match t with
  | O => 0
  | S t' => advance c t' + Siren.phase_delta (c + Z.of_nat t')
  end.

Definition ideal (p0 : R) (c0 : Z) (t : nat) : R := p0 + advance c0 t.

(** How far [k] roundings in binary64 can take a value from the unrounded
    one, all the values met being of magnitude at most [b]. *)
Definition tol (b : R) (k : nat) : R :=
  (b + Fp.bpow (-1022)) * ((1 + Fp.bpow (-53)) ^ k - 1).

(** The same for a phase, over a run of [samples] samples started at
    [phase]: each increment is at most [1/4]. *)
Definition phase_tolerance (phase : R) (samples : nat) : R :=
  tol (Rabs phase + INR samples / 4) samples.

(** The shared variables at full volume, and a state whose next sample
    falls on the crest of the sine. *)
Definition full_volume : Alarm.Globals :=
  {| Alarm._amplitude := Siren.MAX_AMPLITUDE; Alarm._stop_audio := false |}.

Definition crest : Alarm.SynthState :=
  {| Alarm.phase := 410058402425871 / 281474976710656;
     Alarm.sample_cnt := 0 |}.

(** A state whose sample counter is the last one that fits in [int64]. *)
Definition brink : Alarm.SynthState :=
  {| Alarm.phase := 0; Alarm.sample_cnt := Np.int64_max |}.

(** Settles the order tests on concrete numbers. *)
Ltac decide_order :=
  repeat match goal with
    | |- context [Rgt_dec ?a ?b] =>
        destruct (Rgt_dec a b); [ try (exfalso; lra) | try (exfalso; lra) ]
    | |- context [Rlt_dec ?a ?b] =>
        destruct (Rlt_dec a b); [ try (exfalso; lra) | try (exfalso; lra) ]
    | |- context [Rle_dec ?a ?b] =>
        destruct (Rle_dec a b); [ try (exfalso; lra) | try (exfalso; lra) ]
    end.

(** ** Facts about the Python primitives *)

Lemma floor_spec (x : R) : IZR (Py.floor x) <= x < IZR (Py.floor x) + 1.
Proof.
  unfold Py.floor. destruct (archimed x) as [Hgt Hle].
  rewrite minus_IZR. lra.
Qed.

Lemma floor_unique (x : R) (z : Z) :
  IZR z <= x < IZR z + 1 -> Py.floor x = z.
Proof.
  intros [Hlo Hhi]. unfold Py.floor.
  rewrite <- (up_tech x z Hlo).
  - lia.
  - rewrite plus_IZR. lra.
Qed.

Lemma floor_IZR (z : Z) : Py.floor (IZR z) = z.
Proof. apply floor_unique. lra. Qed.

Lemma int_nonneg_unique (x : R) (z : Z) :
  0 <= x -> IZR z <= x < IZR z + 1 -> Py.int x = z.
Proof.
  intros Hx Hz. unfold Py.int.
  destruct (Rle_dec 0 x) as [_ | Hn]; [ | contradiction ].
  now apply floor_unique.
Qed.

Lemma round_half_even_IZR (z : Z) : Py.round_half_even (IZR z) = z.
Proof.
  unfold Py.round_half_even. rewrite floor_IZR.
  destruct (Rlt_dec (IZR z - IZR z) (1 / 2)) as [_ | Hn]; [ reflexivity | ].
  exfalso. apply Hn. lra.
Qed.

(** Away from a tie the nearest integer is determined by a half-open
    interval of width one. *)
Lemma round_half_even_unique (x : R) (z : Z) :
  IZR z - 1 / 2 < x < IZR z + 1 / 2 -> Py.round_half_even x = z.
Proof.
  intros [Hlo Hhi]. unfold Py.round_half_even.
  destruct (Rle_dec (IZR z) x) as [Hzx | Hzx].
  - rewrite (floor_unique x z) by lra.
    destruct (Rlt_dec (x - IZR z) (1 / 2)) as [_ | Hn]; [ reflexivity | lra ].
  - assert (Hf : Py.floor x = (z - 1)%Z).
    { apply floor_unique. rewrite minus_IZR. lra. }
    rewrite Hf, minus_IZR.
    destruct (Rlt_dec (x - (IZR z - 1)) (1 / 2)) as [Hc | _]; [ lra | ].
    destruct (Rlt_dec (1 / 2) (x - (IZR z - 1))) as [_ | Hc]; [ lia | lra ].
Qed.

Lemma max_lower (a b : R) : a <= Py.max a b.
Proof. unfold Py.max. destruct (Rlt_dec a b); lra. Qed.

Lemma max_min_upper (a b x : R) : a <= b -> Py.max a (Py.min b x) <= b.
Proof.
  intros Hab. unfold Py.max, Py.min.
  destruct (Rlt_dec x b); destruct (Rlt_dec a _); lra.
Qed.

Lemma last_item_cons (d x : R) (l : list R) :
  Py.last_item (x :: l) = Py.Ok (last (x :: l) d).
Proof.
  revert x. induction l as [ | y l IH ]; intros x; [ reflexivity | ].
  change (Py.last_item (x :: y :: l)) with (Py.last_item (y :: l)).
  rewrite IH. reflexivity.
Qed.

Lemma Rabs_le_inv (a b : R) : Rabs a <= b -> - b <= a <= b.
Proof. unfold Rabs. destruct (Rcase_abs a); lra. Qed.

Lemma IZR_lt_succ_le (a b : Z) : IZR a < IZR b + 1 -> (a <= b)%Z.
Proof.
  intros H. rewrite <- plus_IZR in H. apply lt_IZR in H. lia.
Qed.

Lemma floor_ge (y : R) (k : Z) : IZR k <= y -> (k <= Py.floor y)%Z.
Proof.
  intros H. destruct (floor_spec y) as [_ Hhi].
  apply IZR_lt_succ_le. lra.
Qed.

(** Rounding to nearest with ties to even stays at or below an integer [z]
    up to and including the tie above [z] when [z] is even, and up to but
    excluding it when [z] is odd. *)
Lemma round_half_even_le (z : Z) (y : R) :
  (Py.round_half_even y <= z)%Z <->
  (y < IZR z + 1 / 2 \/ (y = IZR z + 1 / 2 /\ Z.even z = true)).
Proof.
  unfold Py.round_half_even.
  destruct (floor_spec y) as [Hlo Hhi].
  set (f := Py.floor y) in *.
  destruct (Rlt_dec (y - IZR f) (1 / 2)) as [Hr | Hr].
  - split.
    + intros Hle. apply IZR_le in Hle. left. lra.
    + intros H. apply IZR_lt_succ_le. lra.
  - destruct (Rlt_dec (1 / 2) (y - IZR f)) as [Hr' | Hr'].
    + split.
      * intros Hle. apply IZR_le in Hle. rewrite plus_IZR in Hle. left. lra.
      * intros H. assert (Hfz : (f < z)%Z).
        { apply lt_IZR. lra. }
        lia.
    + assert (Hy : y = IZR f + 1 / 2) by lra.
      destruct (Z.even f) eqn:Hev.
      * split.
        -- intros Hle. apply IZR_le in Hle.
           destruct (Z.eq_dec f z) as [-> | Hne].
           ++ right. split; assumption.
           ++ left. assert (Hfz : (f < z)%Z) by (apply le_IZR in Hle; lia).
              apply IZR_lt in Hfz. lra.
        -- intros [H | [H _]]; apply IZR_lt_succ_le; lra.
      * split.
        -- intros Hle. left. apply IZR_le in Hle. rewrite plus_IZR in Hle. lra.
        -- intros [H | [H Hz]].
           ++ assert (Hfz : (f < z)%Z) by (apply lt_IZR; lra). lia.
           ++ assert (Hfz : f = z) by (apply eq_IZR; lra).
              subst z. congruence.
Qed.

Lemma round_half_even_upper (y : R) (k : Z) :
  y <= IZR k -> (Py.round_half_even y <= k)%Z.
Proof. intros H. apply round_half_even_le. left. lra. Qed.

Lemma round_half_even_lower (y : R) (k : Z) :
  IZR k <= y -> (k <= Py.round_half_even y)%Z.
Proof.
  intros H. pose proof (floor_ge y k H) as Hf. unfold Py.round_half_even.
  destruct (Rlt_dec _ _); [ exact Hf | ].
  destruct (Rlt_dec _ _); [ lia | ].
  destruct (Z.even _); lia.
Qed.

(** The nearest integer is within a half. *)
Lemma round_half_even_error (y : R) :
  Rabs (IZR (Py.round_half_even y) - y) <= 1 / 2.
Proof.
  unfold Py.round_half_even. destruct (floor_spec y) as [Hlo Hhi].
  set (f := Py.floor y) in *.
  destruct (Rlt_dec (y - IZR f) (1 / 2)) as [Hr | Hr].
  - apply Rabs_le. lra.
  - destruct (Rlt_dec (1 / 2) (y - IZR f)) as [Hr' | Hr'].
    + rewrite plus_IZR. apply Rabs_le. lra.
    + destruct (Z.even f); [ | rewrite plus_IZR ]; apply Rabs_le; lra.
Qed.

Lemma round_half_even_tie (z : Z) :
  Py.round_half_even (IZR z + 1 / 2) = if Z.even z then z else (z + 1)%Z.
Proof.
  unfold Py.round_half_even.
  rewrite (floor_unique (IZR z + 1 / 2) z) by lra.
  destruct (Rlt_dec _ _) as [H | _]; [ lra | ].
  destruct (Rlt_dec _ _) as [H | _]; [ lra | reflexivity ].
Qed.

(** ** The amplitude mapper *)

Lemma distance_to_amplitude_far (d : R) :
  d > IZR Alarm.DISTANCE_THRESHOLD_CM -> Alarm.distance_to_amplitude d = 0.
Proof.
  intros Hd. unfold Alarm.distance_to_amplitude.
  destruct (Rgt_dec d (IZR Alarm.DISTANCE_THRESHOLD_CM)); [ reflexivity | contradiction ].
Qed.

Lemma distance_to_amplitude_near (d : R) :
  d <= IZR Alarm.DISTANCE_THRESHOLD_CM ->
  Alarm.distance_to_amplitude d =
  Alarm.MAX_AMPLITUDE * (1 - d / IZR Alarm.DISTANCE_THRESHOLD_CM).
Proof.
  intros Hd. unfold Alarm.distance_to_amplitude.
  destruct (Rgt_dec d (IZR Alarm.DISTANCE_THRESHOLD_CM)); [ lra | reflexivity ].
Qed.

Lemma distance_to_amplitude_range (d : R) :
  0 <= d -> 0 <= Alarm.distance_to_amplitude d <= Alarm.MAX_AMPLITUDE.
Proof.
  intros Hd. unfold Alarm.distance_to_amplitude, Alarm.MAX_AMPLITUDE,
    Alarm.DISTANCE_THRESHOLD_CM.
  destruct (Rgt_dec d 50); lra.
Qed.

Lemma distance_to_amplitude_antitone (d1 d2 : R) :
  0 <= d1 -> d1 <= d2 ->
  Alarm.distance_to_amplitude d2 <= Alarm.distance_to_amplitude d1.
Proof.
  intros H0 H12. unfold Alarm.distance_to_amplitude, Alarm.MAX_AMPLITUDE,
    Alarm.DISTANCE_THRESHOLD_CM.
  destruct (Rgt_dec d2 50); destruct (Rgt_dec d1 50); lra.
Qed.

(** The ramp has slope [MAX_AMPLITUDE / DISTANCE_THRESHOLD_CM] below the
    threshold and is flat above it, so it moves by less than the distance
    does. *)
Lemma distance_to_amplitude_lipschitz_at_threshold (d : R) :
  Rabs (Alarm.distance_to_amplitude d
        - Alarm.distance_to_amplitude (IZR Alarm.DISTANCE_THRESHOLD_CM))
  <= Rabs (d - IZR Alarm.DISTANCE_THRESHOLD_CM).
Proof.
  unfold Alarm.distance_to_amplitude, Alarm.MAX_AMPLITUDE,
    Alarm.DISTANCE_THRESHOLD_CM.
  destruct (Rgt_dec 50 50) as [Habs | _]; [ lra | ].
  destruct (Rgt_dec d 50) as [Hd | Hd].
  - replace (0 - 0.4 * (1 - 50 / 50)) with 0 by lra.
    rewrite Rabs_R0. apply Rabs_pos.
  - rewrite (Rabs_left1 (d - 50)) by lra.
    rewrite Rabs_right by lra. lra.
Qed.

(** C3. The amplitude mapper is the piecewise-linear ramp: zero above
    [DISTANCE_THRESHOLD_CM], [MAX_AMPLITUDE * (1 - d / DISTANCE_THRESHOLD_CM)]
    from distance zero up to the threshold; hence [MAX_AMPLITUDE] at
    distance zero, zero at the threshold, non-increasing in the distance,
    and continuous at the threshold. *)
Theorem distance_to_amplitude_piecewise_linear :
  (forall d, 0 <= d -> d > IZR Alarm.DISTANCE_THRESHOLD_CM ->
     Alarm.distance_to_amplitude d = 0) /\
  (forall d, 0 <= d <= IZR Alarm.DISTANCE_THRESHOLD_CM ->
     Alarm.distance_to_amplitude d =
     Alarm.MAX_AMPLITUDE * (1 - d / IZR Alarm.DISTANCE_THRESHOLD_CM)) /\
  Alarm.distance_to_amplitude 0 = Alarm.MAX_AMPLITUDE /\
  Alarm.distance_to_amplitude (IZR Alarm.DISTANCE_THRESHOLD_CM) = 0 /\
  (forall d1 d2, 0 <= d1 -> d1 <= d2 ->
     Alarm.distance_to_amplitude d2 <= Alarm.distance_to_amplitude d1) /\
  continuity_pt Alarm.distance_to_amplitude (IZR Alarm.DISTANCE_THRESHOLD_CM).
Proof.
  repeat split.
  - intros d _ Hd. now apply distance_to_amplitude_far.
  - intros d [_ Hd]. now apply distance_to_amplitude_near.
  - rewrite distance_to_amplitude_near.
    + unfold Alarm.DISTANCE_THRESHOLD_CM. lra.
    + unfold Alarm.DISTANCE_THRESHOLD_CM. lra.
  - rewrite distance_to_amplitude_near by lra.
    unfold Alarm.DISTANCE_THRESHOLD_CM. lra.
  - apply distance_to_amplitude_antitone.
  - intros eps Heps. exists eps. split; [ exact Heps | ].
    intros d [_ Hdist]. simpl in *. unfold Rdist in *.
    eapply Rle_lt_trans; [ apply distance_to_amplitude_lipschitz_at_threshold | ].
    exact Hdist.
Qed.

(** ** The siren synthesiser *)

(** The tone alternates every 8820 samples, a fifth of a second. *)
Lemma half_cycle_samples_value : Alarm.half_cycle_samples = 8820%Z.
Proof.
  unfold Alarm.half_cycle_samples, Alarm.SAMPLE_RATE, Alarm.SIREN_CYCLE_SEC.
  apply int_nonneg_unique; lra.
Qed.

Lemma freq_at_value (index : Z) :
  Alarm.freq_at index =
  if (index mod 17640 <? 8820)%Z then 800%Z else 1100%Z.
Proof.
  unfold Alarm.freq_at, Alarm.cycle_len.
  rewrite half_cycle_samples_value. reflexivity.
Qed.

Example freq_at_low : Alarm.freq_at 8819 = Alarm.SIREN_FREQ_LOW.
Proof. rewrite freq_at_value. reflexivity. Qed.

Example freq_at_high : Alarm.freq_at 8820 = Alarm.SIREN_FREQ_HIGH.
Proof. rewrite freq_at_value. reflexivity. Qed.

Example freq_at_wraps : Alarm.freq_at 17640 = Alarm.SIREN_FREQ_LOW.
Proof. rewrite freq_at_value. reflexivity. Qed.

Lemma indices_succ (c : Z) (n : nat) :
  Alarm.indices c (S n) = c :: Alarm.indices (c + 1) n.
Proof.
  unfold Alarm.indices, Py.np_arange.
  rewrite <- cons_seq, <- seq_shift. simpl. f_equal.
  rewrite !map_map. apply map_ext. intros i. lia.
Qed.

Lemma cumsum_from_phases (p acc : R) (c : Z) (n : nat) :
  map (fun s => s + p)
    (Py.cumsum_from acc (map Alarm.phase_delta (Alarm.indices c n)))
  = phases (acc + p) c n.
Proof.
  revert acc c. induction n as [ | n IH ]; intros acc c; [ reflexivity | ].
  rewrite indices_succ. simpl. rewrite IH.
  replace (acc + Alarm.phase_delta c + p)
    with (acc + p + Alarm.phase_delta c) by ring.
  reflexivity.
Qed.

Lemma phase_array_phases (p : R) (c : Z) (n : nat) :
  Alarm.phase_array p c n = phases p c n.
Proof.
  unfold Alarm.phase_array. destruct n as [ | n ]; [ reflexivity | ].
  rewrite indices_succ. simpl. rewrite cumsum_from_phases.
  now rewrite (Rplus_comm (Alarm.phase_delta c) p).
Qed.


(** A call raises only when it is voiced and asked for no sample at all;
    otherwise it returns what [synthesize] says. *)
Lemma generate_siren_chunk_synthesize g st n :
  Alarm._amplitude g <= 0 \/ (0 < n)%nat ->
  Alarm.generate_siren_chunk g st n =
  Py.Ok ((fst (synthesize g st n),
          Alarm.phase (snd (synthesize g st n)),
          Alarm.sample_cnt (snd (synthesize g st n))),
         snd (synthesize g st n)).
Proof.
  intros Hn. unfold Alarm.generate_siren_chunk, synthesize.
  destruct (Rle_dec (Alarm._amplitude g) 0) as [Hs | Hv]; [ reflexivity | ].
  destruct Hn as [Hs | Hn]; [ contradiction | ].
  rewrite phase_array_phases. unfold end_phase.
  destruct n as [ | n ]; [ lia | ].
  cbn [phases]. cbv zeta.
  rewrite (last_item_cons (Alarm.phase st)). reflexivity.
Qed.


(** C2. Silence: when the shared amplitude read by the call is [<= 0], the
    chunk has [num_samples] samples, every one exactly [0], the phase of
    the state is unchanged and the sample counter has advanced by
    [num_samples]. *)
Theorem silence_correctness (g : Alarm.Globals) (st : Alarm.SynthState)
  (num_samples : nat) :
  Alarm._amplitude g <= 0 ->
  exists samples,
    Alarm.generate_siren_chunk g st num_samples =
      Py.Ok ((samples, Alarm.phase st,
              (Alarm.sample_cnt st + Z.of_nat num_samples)%Z),
             {| Alarm.phase := Alarm.phase st;
                Alarm.sample_cnt :=
                  (Alarm.sample_cnt st + Z.of_nat num_samples)%Z |}) /\
    length samples = num_samples /\
    Forall (fun s => s = 0) samples.
Proof.
  intros Hs. exists (Py.np_zeros num_samples). repeat split.
  - unfold Alarm.generate_siren_chunk.
    destruct (Rle_dec (Alarm._amplitude g) 0); [ reflexivity | contradiction ].
  - apply repeat_length.
  - apply Forall_forall. intros s Hin. now apply repeat_spec in Hin.
Qed.

Lemma silence_correctness_witness :
  exists samples,
    Alarm.generate_siren_chunk muted fresh Alarm.CHUNK_SIZE =
      Py.Ok ((samples, 0, (0 + Z.of_nat Alarm.CHUNK_SIZE)%Z),
             {| Alarm.phase := 0;
                Alarm.sample_cnt := (0 + Z.of_nat Alarm.CHUNK_SIZE)%Z |}) /\
    length samples = Alarm.CHUNK_SIZE /\
    Forall (fun s => s = 0) samples.
Proof.
  apply (silence_correctness muted fresh Alarm.CHUNK_SIZE).
  unfold muted. simpl. lra.
Defined.

(** ** Binary floating point *)

Lemma bpow_pos (e : Z) : 0 < Fp.bpow e.
Proof. unfold Fp.bpow. apply powerRZ_lt. lra. Qed.

Lemma bpow_add (a b : Z) : Fp.bpow (a + b) = Fp.bpow a * Fp.bpow b.
Proof. unfold Fp.bpow. apply powerRZ_add. lra. Qed.

Lemma bpow_0 : Fp.bpow 0 = 1.
Proof. reflexivity. Qed.

Lemma bpow_opp (e : Z) : Fp.bpow (- e) = / Fp.bpow e.
Proof.
  apply Rmult_eq_reg_l with (Fp.bpow e).
  - rewrite <- bpow_add, Z.add_opp_diag_r, bpow_0.
    rewrite Rinv_r; [ reflexivity | ]. pose proof (bpow_pos e). lra.
  - pose proof (bpow_pos e). lra.
Qed.

Lemma bpow_nat (n : nat) : Fp.bpow (Z.of_nat n) = 2 ^ n.
Proof. unfold Fp.bpow. symmetry. apply pow_powerRZ. Qed.

Lemma bpow_IZR (e : Z) : (0 <= e)%Z -> Fp.bpow e = IZR (2 ^ e).
Proof.
  intros He. rewrite <- (Z2Nat.id e He), bpow_nat.
  rewrite <- (Z2Nat.id 2) at 2 by lia.
  rewrite <- Nat2Z.inj_pow, <- INR_IZR_INZ, pow_INR. reflexivity.
Qed.

Lemma bpow_ge_1 (e : Z) : (0 <= e)%Z -> 1 <= Fp.bpow e.
Proof.
  intros He. rewrite <- (Z2Nat.id e He), bpow_nat.
  apply pow_R1_Rle. lra.
Qed.

Lemma bpow_le (a b : Z) : (a <= b)%Z -> Fp.bpow a <= Fp.bpow b.
Proof.
  intros Hab. replace b with (a + (b - a))%Z by lia. rewrite bpow_add.
  pose proof (bpow_pos a). pose proof (bpow_ge_1 (b - a) ltac:(lia)). nra.
Qed.

Lemma bpow_succ (e : Z) : Fp.bpow (e + 1) = 2 * Fp.bpow e.
Proof. rewrite bpow_add. change (Fp.bpow 1) with (2 * 1). ring. Qed.

Lemma bpow_lt (a b : Z) : (a < b)%Z -> Fp.bpow a < Fp.bpow b.
Proof.
  intros Hab. pose proof (bpow_le (a + 1) b ltac:(lia)) as H.
  rewrite bpow_succ in H. pose proof (bpow_pos a). lra.
Qed.

Lemma bpow_lt_inv (a b : Z) : Fp.bpow a < Fp.bpow b -> (a < b)%Z.
Proof.
  intros H. destruct (Z_lt_le_dec a b) as [Hlt | Hge]; [ exact Hlt | ].
  pose proof (bpow_le b a Hge). lra.
Qed.

Lemma ln_2_pos : 0 < ln 2.
Proof. pose proof ln_lt_2. lra. Qed.

Lemma ln_bpow (e : Z) : ln (Fp.bpow e) = IZR e * ln 2.
Proof.
  unfold Fp.bpow. rewrite powerRZ_Rpower by lra. unfold Rpower.
  apply ln_exp.
Qed.

Lemma mag_unique (x : R) (k : Z) :
  Fp.bpow (k - 1) <= Rabs x < Fp.bpow k -> Fp.mag x = k.
Proof.
  intros [Hlo Hhi]. unfold Fp.mag.
  assert (Hx : 0 < Rabs x) by (pose proof (bpow_pos (k - 1)); lra).
  rewrite (floor_unique _ (k - 1)); [ lia | ].
  pose proof ln_2_pos as H2.
  assert (Hl : IZR (k - 1) * ln 2 <= ln (Rabs x)).
  { rewrite <- ln_bpow. destruct Hlo as [Hlt | Heq].
    - left. apply ln_increasing; [ apply bpow_pos | exact Hlt ].
    - right. now rewrite Heq. }
  assert (Hu : ln (Rabs x) < IZR k * ln 2).
  { rewrite <- ln_bpow. apply ln_increasing; assumption. }
  rewrite minus_IZR in *. split.
  - apply Rmult_le_reg_r with (ln 2); [ exact H2 | ].
    unfold Rdiv. rewrite Rmult_assoc, Rinv_l by lra. lra.
  - apply Rmult_lt_reg_r with (ln 2); [ exact H2 | ].
    unfold Rdiv. rewrite Rmult_assoc, Rinv_l by lra. lra.
Qed.

Lemma mag_spec (x : R) :
  x <> 0 -> Fp.bpow (Fp.mag x - 1) <= Rabs x < Fp.bpow (Fp.mag x).
Proof.
  intros Hx. unfold Fp.mag.
  assert (Hpos : 0 < Rabs x) by now apply Rabs_pos_lt.
  pose proof ln_2_pos as H2.
  destruct (floor_spec (ln (Rabs x) / ln 2)) as [Hlo Hhi].
  set (f := Py.floor (ln (Rabs x) / ln 2)) in *.
  replace (f + 1 - 1)%Z with f by lia.
  assert (Hy : ln (Rabs x) / ln 2 * ln 2 = ln (Rabs x)).
  { unfold Rdiv. rewrite Rmult_assoc, Rinv_l by lra. ring. }
  assert (Hl : IZR f * ln 2 <= ln (Rabs x)) by nra.
  assert (Hu : ln (Rabs x) < IZR (f + 1) * ln 2) by (rewrite plus_IZR; nra).
  rewrite <- !ln_bpow in *. split.
  - destruct Hl as [Hlt | Heq].
    + left. apply ln_lt_inv; [ apply bpow_pos | exact Hpos | exact Hlt ].
    + right. apply ln_inv; [ apply bpow_pos | exact Hpos | exact Heq ].
  - apply ln_lt_inv; [ exact Hpos | apply bpow_pos | exact Hu ].
Qed.

Section Rounding.

Variable f : Fp.format.

Lemma round_0 : Fp.round f 0 = 0.
Proof.
  unfold Fp.round. cbv zeta. rewrite Rmult_0_l.
  rewrite round_half_even_IZR. ring.
Qed.

(** The result is within half a unit in the last place kept. *)
Lemma round_error (x : R) :
  Rabs (Fp.round f x - x) <= Fp.bpow (Fp.cexp f x) / 2.
Proof.
  unfold Fp.round. cbv zeta. set (e := Fp.cexp f x).
  pose proof (bpow_pos e) as He.
  pose proof (round_half_even_error (x * Fp.bpow (- e))) as Hr.
  replace (IZR (Py.round_half_even (x * Fp.bpow (- e))) * Fp.bpow e - x)
    with ((IZR (Py.round_half_even (x * Fp.bpow (- e))) - x * Fp.bpow (- e))
          * Fp.bpow e).
  - rewrite Rabs_mult, (Rabs_right (Fp.bpow e)) by lra. nra.
  - rewrite bpow_opp. field. lra.
Qed.

(** The error relative to the value, with the absolute term of the
    subnormal range. *)
Lemma round_error_rel (x : R) :
  Rabs (Fp.round f x - x)
  <= Fp.bpow (- Fp.prec f) * Rabs x + Fp.bpow (Fp.emin f - 1).
Proof.
  destruct (Req_dec x 0) as [-> | Hx].
  - rewrite round_0, Rminus_0_r, Rabs_R0, Rmult_0_r.
    pose proof (bpow_pos (Fp.emin f - 1)). lra.
  - eapply Rle_trans; [ apply round_error | ].
    destruct (mag_spec x Hx) as [Hlo _].
    assert (Hm : Fp.bpow (Fp.mag x - Fp.prec f)
                 = Fp.bpow (Fp.mag x - 1) * (2 * Fp.bpow (- Fp.prec f))).
    { rewrite <- bpow_succ, <- bpow_add. f_equal. lia. }
    assert (He : Fp.bpow (Fp.emin f) = 2 * Fp.bpow (Fp.emin f - 1)).
    { rewrite <- bpow_succ. f_equal. lia. }
    pose proof (bpow_pos (- Fp.prec f)) as Hp.
    pose proof (bpow_pos (Fp.emin f - 1)) as Hn.
    pose proof (bpow_pos (Fp.mag x - 1)) as Hq.
    unfold Fp.cexp.
    destruct (Z.max_spec (Fp.mag x - Fp.prec f) (Fp.emin f)) as [[_ ->] | [_ ->]].
    + rewrite He. nra.
    + rewrite Hm. nra.
Qed.

(** Evaluation: in the binade [[2^(k-1), 2^k)] the result is the multiple
    of the unit in the last place that lies within half a unit. *)
Lemma round_eval (x : R) (k m : Z) :
  Fp.bpow (k - 1) <= Rabs x < Fp.bpow k ->
  Rabs (x - IZR m * Fp.bpow (Z.max (k - Fp.prec f) (Fp.emin f)))
    < Fp.bpow (Z.max (k - Fp.prec f) (Fp.emin f)) / 2 ->
  Fp.round f x = IZR m * Fp.bpow (Z.max (k - Fp.prec f) (Fp.emin f)).
Proof.
  intros Hk Hm. unfold Fp.round, Fp.cexp. cbv zeta.
  rewrite (mag_unique x k Hk).
  set (e := Z.max (k - Fp.prec f) (Fp.emin f)) in *.
  pose proof (bpow_pos e) as He.
  rewrite (round_half_even_unique _ m); [ reflexivity | ].
  apply Rabs_def2 in Hm. rewrite bpow_opp.
  assert (Hx : x = x * / Fp.bpow e * Fp.bpow e) by (field; lra).
  set (y := x * / Fp.bpow e) in *. nra.
Qed.

Hypothesis prec_pos : (0 < Fp.prec f)%Z.

(** A number of the format bounds the results of everything it bounds. *)
Lemma round_bounded (x : R) (M E : Z) :
  (0 < M < 2 ^ Fp.prec f)%Z -> (Fp.emin f <= E)%Z ->
  Rabs x <= IZR M * Fp.bpow E ->
  Rabs (Fp.round f x) <= IZR M * Fp.bpow E.
Proof.
  intros [HM0 HM] HE Hx.
  destruct (Req_dec x 0) as [-> | Hx0].
  { rewrite round_0. now rewrite Rabs_R0 in *. }
  destruct (mag_spec x Hx0) as [Hlo _].
  assert (Hc : (Fp.cexp f x <= E)%Z).
  { assert (Hlt : Fp.bpow (Fp.mag x - 1) < Fp.bpow (Fp.prec f + E)).
    { eapply Rle_lt_trans; [ exact Hlo | ].
      eapply Rle_lt_trans; [ exact Hx | ].
      rewrite bpow_add. apply Rmult_lt_compat_r; [ apply bpow_pos | ].
      rewrite bpow_IZR by lia. now apply IZR_lt. }
    apply bpow_lt_inv in Hlt. unfold Fp.cexp. lia. }
  unfold Fp.round. cbv zeta. set (e := Fp.cexp f x) in *.
  pose proof (bpow_pos e) as He.
  assert (HK : IZR M * Fp.bpow E = IZR (M * 2 ^ (E - e)) * Fp.bpow e).
  { rewrite mult_IZR, <- bpow_IZR by lia.
    rewrite Rmult_assoc, <- bpow_add. do 2 f_equal. lia. }
  rewrite HK in *. set (K := (M * 2 ^ (E - e))%Z) in *.
  set (y := x * Fp.bpow (- e)).
  assert (Hy : Rabs y <= IZR K).
  { unfold y. rewrite Rabs_mult, (Rabs_right (Fp.bpow (- e)))
      by (pose proof (bpow_pos (- e)); lra).
    rewrite bpow_opp. apply Rmult_le_reg_r with (Fp.bpow e); [ exact He | ].
    rewrite Rmult_assoc, Rinv_l by lra. lra. }
  apply Rabs_le_inv in Hy.
  rewrite Rabs_mult, (Rabs_right (Fp.bpow e)) by lra.
  apply Rmult_le_compat_r; [ lra | ].
  apply Rabs_le. rewrite <- opp_IZR. split; apply IZR_le.
  - apply round_half_even_lower. rewrite opp_IZR. lra.
  - apply round_half_even_upper. lra.
Qed.

Lemma round_nonneg (x : R) : 0 <= x -> 0 <= Fp.round f x.
Proof.
  intros Hx. unfold Fp.round. cbv zeta.
  apply Rmult_le_pos; [ | pose proof (bpow_pos (Fp.cexp f x)); lra ].
  apply IZR_le. apply round_half_even_lower.
  apply Rmult_le_pos; [ exact Hx | pose proof (bpow_pos (- Fp.cexp f x)); lra ].
Qed.

End Rounding.

(** ** Evaluation at concrete numbers *)

Lemma bpow_Zpos (p : positive) : Fp.bpow (Zpos p) = IZR (2 ^ Zpos p).
Proof. apply bpow_IZR. lia. Qed.

Lemma bpow_Zneg (p : positive) : Fp.bpow (Zneg p) = / IZR (2 ^ Zpos p).
Proof.
  change (Zneg p) with (- Zpos p)%Z. rewrite bpow_opp, bpow_Zpos. reflexivity.
Qed.

(** Turns the powers of two with literal exponents into numerals. *)
Ltac bpow_numeral :=
  repeat match goal with
    | |- context [Fp.bpow (Zpos ?p)] =>
        let v := eval vm_compute in (2 ^ Zpos p)%Z in
        rewrite (bpow_Zpos p); change (2 ^ Zpos p)%Z with v
    | |- context [Fp.bpow (Zneg ?p)] =>
        let v := eval vm_compute in (2 ^ Zpos p)%Z in
        rewrite (bpow_Zneg p); change (2 ^ Zpos p)%Z with v
    | |- context [Fp.bpow 0] => change (Fp.bpow 0) with 1
    end.

Lemma round_eval_pos (f : Fp.format) (x : R) (k m e : Z) :
  e = Z.max (k - Fp.prec f) (Fp.emin f) ->
  Fp.bpow (k - 1) <= x < Fp.bpow k ->
  - (Fp.bpow e / 2) < x - IZR m * Fp.bpow e < Fp.bpow e / 2 ->
  Fp.round f x = IZR m * Fp.bpow e.
Proof.
  intros -> Hk Hm.
  assert (Hx : 0 <= x) by (pose proof (bpow_pos (k - 1)); lra).
  apply (round_eval f x k m).
  - now rewrite Rabs_right by lra.
  - apply Rabs_def1; lra.
Qed.

(** Proves [Fp.round f x = v] for a positive rational [x] in the binade
    below [2^k], giving the integer significand [m] of the result. *)
Ltac round_numeral k m :=
  match goal with
  | |- Fp.round ?f ?x = _ =>
      let e := eval vm_compute in (Z.max (k - Fp.prec f) (Fp.emin f)) in
      rewrite (round_eval_pos f x k m e);
      [ bpow_numeral; lra
      | reflexivity
      | let a := eval vm_compute in (k - 1)%Z in
        change (k - 1)%Z with a; bpow_numeral; lra
      | bpow_numeral; lra ]
  end.

(** Evaluation on a tie: the even significand is taken. *)
Lemma round_eval_tie (f : Fp.format) (x : R) (k m e : Z) :
  e = Z.max (k - Fp.prec f) (Fp.emin f) ->
  Fp.bpow (k - 1) <= x < Fp.bpow k ->
  x - IZR m * Fp.bpow e = Fp.bpow e / 2 ->
  Z.even m = true ->
  Fp.round f x = IZR m * Fp.bpow e.
Proof.
  intros -> Hk Hm Hev. unfold Fp.round, Fp.cexp. cbv zeta.
  assert (Hx : 0 <= x) by (pose proof (bpow_pos (k - 1)); lra).
  rewrite (mag_unique x k) by (rewrite Rabs_right by lra; exact Hk).
  set (e := Z.max (k - Fp.prec f) (Fp.emin f)) in *.
  pose proof (bpow_pos e) as He.
  replace (x * Fp.bpow (- e)) with (IZR m + 1 / 2).
  - now rewrite round_half_even_tie, Hev.
  - rewrite bpow_opp. apply Rmult_eq_reg_r with (Fp.bpow e); [ | lra ].
    rewrite Rmult_assoc, Rinv_l by lra. lra.
Qed.

Ltac round_tie k m :=
  match goal with
  | |- Fp.round ?f ?x = _ =>
      let e := eval vm_compute in (Z.max (k - Fp.prec f) (Fp.emin f)) in
      rewrite (round_eval_tie f x k m e);
      [ bpow_numeral; lra
      | reflexivity
      | let a := eval vm_compute in (k - 1)%Z in
        change (k - 1)%Z with a; bpow_numeral; lra
      | bpow_numeral; lra
      | reflexivity ]
  end.

(** ** The constants of the synthesiser *)

(** The literal [0.4] is [0.40000000000000002220446049250313]. *)
Lemma float64_literal_0_4 :
  Np.float64 0.4 = 3602879701896397 / 9007199254740992.
Proof. unfold Np.float64. round_numeral (-1)%Z 7205759403792794%Z. Qed.

Lemma MAX_AMPLITUDE_value :
  Siren.MAX_AMPLITUDE = 3602879701896397 / 9007199254740992.
Proof. exact float64_literal_0_4. Qed.

(** The product [44100 * 0.4] is rounded to [17640.0], so that the tone
    alternates every 8820 samples here too. *)
Lemma siren_half_cycle_samples_value : Siren.half_cycle_samples = 8820%Z.
Proof.
  unfold Siren.half_cycle_samples, Siren.SIREN_CYCLE_SEC, Alarm.SAMPLE_RATE.
  rewrite float64_literal_0_4. unfold Np.float64.
  assert (H1 : Fp.round Fp.binary64
                 (44100 * (3602879701896397 / 9007199254740992)) = 17640).
  { round_numeral 15%Z 4848846278492160%Z. }
  rewrite H1.
  assert (H2 : Fp.round Fp.binary64 (17640 / 2) = 8820).
  { round_numeral 14%Z 4848846278492160%Z. }
  rewrite H2. apply int_nonneg_unique; lra.
Qed.

(** Doubling is exact. *)
Lemma two_pi_value :
  Np.float64 (2 * Np.pi) = 884279719003555 / 140737488355328.
Proof.
  unfold Np.float64, Np.pi.
  round_numeral 3%Z 7074237752028440%Z.
Qed.

Lemma siren_freq_at_value (index : Z) :
  Siren.freq_at index = if (index mod 17640 <? 8820)%Z then 800%Z else 1100%Z.
Proof.
  unfold Siren.freq_at, Siren.cycle_len.
  rewrite siren_half_cycle_samples_value. reflexivity.
Qed.

(** The two phase increments: [2 * np.pi * 800] is rounded to
    [5026.548245743669] and its quotient by 44100 to [delta_low];
    likewise for 1100 Hz. *)
Lemma phase_delta_value (index : Z) :
  Siren.phase_delta index =
  if (index mod 17640 <? 8820)%Z then delta_low else delta_high.
Proof.
  unfold Siren.phase_delta. rewrite two_pi_value, siren_freq_at_value.
  unfold Alarm.SAMPLE_RATE, Np.float64, delta_low, delta_high.
  destruct (index mod 17640 <? 8820)%Z.
  - assert (H1 : Fp.round Fp.binary64 (884279719003555 / 140737488355328 * 800)
                 = 5526748243772219 / 1099511627776).
    { round_numeral 13%Z 5526748243772219%Z. }
    rewrite H1. round_numeral (-3)%Z 8213173988749572%Z.
  - assert (H1 : Fp.round Fp.binary64 (884279719003555 / 140737488355328 * 1100)
                 = 7599278835186801 / 1099511627776).
    { round_numeral 13%Z 7599278835186801%Z. }
    rewrite H1. round_numeral (-2)%Z 5646557117265331%Z.
Qed.

Lemma phase_delta_low (index : Z) :
  (0 <= index < 8820)%Z -> Siren.phase_delta index = delta_low.
Proof.
  intros Hi. rewrite phase_delta_value, Z.mod_small by lia.
  destruct (Z.ltb_spec index 8820); [ reflexivity | lia ].
Qed.

(** The error of one operation, in each format. *)
Lemma float64_error (x : R) :
  Rabs (Np.float64 x - x)
  <= Fp.bpow (-53) * Rabs x + Fp.bpow (-53) * Fp.bpow (-1022).
Proof.
  rewrite <- bpow_add. exact (round_error_rel Fp.binary64 x).
Qed.

Lemma float32_error (x : R) :
  Rabs (Np.float32 x - x) <= Fp.bpow (-24) * Rabs x + Fp.bpow (-150).
Proof. exact (round_error_rel Fp.binary32 x). Qed.

(** ** The synthesiser in binary arithmetic *)

(** Within [int64] nothing wraps: the indices of a chunk are the
    positions that follow the sample counter. *)
Lemma wrap_int64_fits (z : Z) :
  (Np.int64_min <= z <= Np.int64_max)%Z -> Np.wrap_int64 z = z.
Proof.
  unfold Np.int64_min, Np.int64_max, Np.wrap_int64. intros Hz.
  rewrite Z.mod_small; lia.
Qed.

Lemma indices_no_wrap (c : Z) (n : nat) :
  (Np.int64_min <= c)%Z -> (c + Z.of_nat n <= Np.int64_max + 1)%Z ->
  (c <= Np.int64_max)%Z ->
  Siren.indices c n = Np.Ok (map (fun i => (c + Z.of_nat i)%Z) (seq 0 n)).
Proof.
  intros Hlo Hhi Hc. unfold Siren.indices, Np.fits_int64.
  destruct (Z.leb_spec Np.int64_min c); [ | lia ].
  destruct (Z.leb_spec c Np.int64_max); [ | lia ].
  cbn [andb]. f_equal. unfold Py.np_arange. rewrite map_map.
  apply map_ext_in. intros i Hi. apply in_seq in Hi.
  rewrite wrap_int64_fits by lia. lia.
Qed.

Lemma indices_overflow (c : Z) (n : nat) :
  Np.fits_int64 c = false -> Siren.indices c n = Np.OverflowError.
Proof. intros H. unfold Siren.indices. now rewrite H. Qed.

(** The phase array of a chunk, entry by entry. *)
Lemma cumsum_from_partial_sum (c : Z) (m : nat) :
  forall k,
    Np.cumsum_from (partial_sum c k)
      (map Siren.phase_delta
         (map (fun i => (c + Z.of_nat i)%Z) (seq (S k) m)))
    = map (partial_sum c) (seq (S k) m).
Proof.
  induction m as [ | m IH ]; intros k; [ reflexivity | ].
  cbn [seq map Np.cumsum_from]. cbv zeta.
  change (Np.float64 (partial_sum c k + Siren.phase_delta (c + Z.of_nat (S k))))
    with (partial_sum c (S k)).
  now rewrite IH.
Qed.

Lemma phase_array_chunk_phases (p : R) (c : Z) (n : nat) :
  Siren.phase_array p (map (fun i => (c + Z.of_nat i)%Z) (seq 0 n))
  = chunk_phases p c n.
Proof.
  unfold Siren.phase_array, chunk_phases. destruct n as [ | n ]; [ reflexivity | ].
  cbn [seq map Np.cumsum]. rewrite Z.add_0_r.
  change (Siren.phase_delta c) with (partial_sum c 0).
  rewrite cumsum_from_partial_sum. cbn [map]. now rewrite map_map.
Qed.

Lemma chunk_phases_length (p : R) (c : Z) (n : nat) :
  length (chunk_phases p c n) = n.
Proof. unfold chunk_phases. now rewrite length_map, length_seq. Qed.

Lemma chunk_phases_last (p : R) (c : Z) (n : nat) :
  Py.last_item (chunk_phases p c (S n)) =
  Py.Ok (Np.float64 (partial_sum c n + p)).
Proof.
  unfold chunk_phases. rewrite seq_S, map_app. cbn [map Nat.add].
  generalize (map (fun k => Np.float64 (partial_sum c k + p)) (seq 0 n)).
  induction l as [ | x l IH ]; [ reflexivity | ].
  destruct l as [ | y l ]; [ reflexivity | exact IH ].
Qed.

(** What a call does, case by case: silent; voiced with a counter
    outside [int64]; voiced and asked for no sample; voiced with a counter
    that fits, where the indices may still wrap; voiced with all its
    positions within [int64]. *)
Lemma siren_chunk_silent np_sin g st n :
  Alarm._amplitude g <= 0 ->
  Siren.generate_siren_chunk np_sin g st n =
  Np.Ok ((Py.np_zeros n, Alarm.phase st,
          (Alarm.sample_cnt st + Z.of_nat n)%Z),
         {| Alarm.phase := Alarm.phase st;
            Alarm.sample_cnt := (Alarm.sample_cnt st + Z.of_nat n)%Z |}).
Proof.
  intros Hs. unfold Siren.generate_siren_chunk.
  destruct (Rle_dec (Alarm._amplitude g) 0); [ reflexivity | contradiction ].
Qed.

Lemma siren_chunk_overflow np_sin g st n :
  0 < Alarm._amplitude g -> Np.fits_int64 (Alarm.sample_cnt st) = false ->
  Siren.generate_siren_chunk np_sin g st n = Np.OverflowError.
Proof.
  intros Hv Hc. unfold Siren.generate_siren_chunk.
  destruct (Rle_dec (Alarm._amplitude g) 0); [ lra | ].
  now rewrite indices_overflow.
Qed.

Lemma siren_chunk_empty np_sin g st :
  0 < Alarm._amplitude g -> Np.fits_int64 (Alarm.sample_cnt st) = true ->
  Siren.generate_siren_chunk np_sin g st 0 = Np.IndexError.
Proof.
  intros Hv Hc. unfold Siren.generate_siren_chunk, Siren.indices.
  destruct (Rle_dec (Alarm._amplitude g) 0); [ lra | ].
  rewrite Hc. reflexivity.
Qed.

Lemma siren_chunk_phases np_sin g st n :
  0 < Alarm._amplitude g -> Np.fits_int64 (Alarm.sample_cnt st) = true ->
  exists ps,
    length ps = S n /\
    Siren.generate_siren_chunk np_sin g st (S n) =
    Np.Ok ((map (sample np_sin (Alarm._amplitude g)) ps,
            last ps 0, (Alarm.sample_cnt st + Z.of_nat (S n))%Z),
           {| Alarm.phase := last ps 0;
              Alarm.sample_cnt := (Alarm.sample_cnt st + Z.of_nat (S n))%Z |}).
Proof.
  intros Hv Hc. unfold Siren.generate_siren_chunk, Siren.indices.
  destruct (Rle_dec (Alarm._amplitude g) 0); [ lra | ].
  rewrite Hc.
  set (ps := Siren.phase_array _ _).
  assert (Hlen : length ps = S n).
  { unfold ps, Siren.phase_array, Py.np_arange.
    rewrite length_map.
    set (l := map Siren.phase_delta _).
    assert (Hl : length l = S n).
    { unfold l. now rewrite !length_map, length_seq. }
    destruct l as [ | x l ]; [ discriminate | ]. simpl in *.
    f_equal. injection Hl as Hl. rewrite <- Hl. clear.
    revert x. induction l as [ | y l IH ]; intros x; [ reflexivity | ].
    simpl. now rewrite IH. }
  exists ps. split; [ exact Hlen | ].
  destruct ps as [ | x ps' ]; [ discriminate | ].
  rewrite (last_item_cons 0). reflexivity.
Qed.

Lemma siren_chunk_voiced np_sin g st n :
  0 < Alarm._amplitude g ->
  (Np.int64_min <= Alarm.sample_cnt st)%Z ->
  (Alarm.sample_cnt st + Z.of_nat (S n) <= Np.int64_max + 1)%Z ->
  Siren.generate_siren_chunk np_sin g st (S n) =
  Np.Ok ((map (sample np_sin (Alarm._amplitude g))
            (chunk_phases (Alarm.phase st) (Alarm.sample_cnt st) (S n)),
          Np.float64 (partial_sum (Alarm.sample_cnt st) n + Alarm.phase st),
          (Alarm.sample_cnt st + Z.of_nat (S n))%Z),
         {| Alarm.phase :=
              Np.float64 (partial_sum (Alarm.sample_cnt st) n + Alarm.phase st);
            Alarm.sample_cnt := (Alarm.sample_cnt st + Z.of_nat (S n))%Z |}).
Proof.
  intros Hv Hlo Hhi. unfold Siren.generate_siren_chunk.
  destruct (Rle_dec (Alarm._amplitude g) 0); [ lra | ].
  rewrite indices_no_wrap by lia.
  rewrite phase_array_chunk_phases, chunk_phases_last. reflexivity.
Qed.

(** ** The ceiling *)

(** Cast to [float32], [MAX_AMPLITUDE] becomes [0.4000000059604645]. *)
Lemma float32_MAX_AMPLITUDE :
  Np.float32 Siren.MAX_AMPLITUDE = 13421773 / 33554432.
Proof.
  rewrite MAX_AMPLITUDE_value. unfold Np.float32.
  round_numeral (-1)%Z 13421773%Z.
Qed.

Lemma float32_amplitude_bound (amp : R) :
  0 <= amp <= Siren.MAX_AMPLITUDE ->
  0 <= Np.float32 amp <= 13421773 / 33554432.
Proof.
  rewrite MAX_AMPLITUDE_value. intros Hamp. split.
  - apply round_nonneg. lra.
  - apply Rle_trans with (Rabs (Np.float32 amp)); [ apply Rle_abs | ].
    replace (13421773 / 33554432) with (IZR 13421773 * Fp.bpow (-25))
      by (bpow_numeral; lra).
    apply round_bounded; try (simpl; lia).
    rewrite Rabs_right by lra. bpow_numeral. lra.
Qed.

Lemma float32_sine_bound (y : R) : Rabs y <= 1 -> Rabs (Np.float32 y) <= 1.
Proof.
  intros Hy. replace 1 with (IZR 1 * Fp.bpow 0) by (bpow_numeral; lra).
  apply round_bounded; try (simpl; lia). bpow_numeral. lra.
Qed.

(** The product of a [float32] amplitude at most [float32(MAX_AMPLITUDE)]
    and a [float32] sine at most [1] is rounded to a [float32] that is at
    most [float32(MAX_AMPLITUDE)]. *)
Lemma sample_bound np_sin (amp p : R) :
  sine_bounded np_sin -> 0 <= amp <= Siren.MAX_AMPLITUDE ->
  Rabs (sample np_sin amp p) <= 13421773 / 33554432.
Proof.
  intros Hsin Hamp. unfold sample.
  pose proof (float32_amplitude_bound amp Hamp) as Ha.
  pose proof (float32_sine_bound (np_sin p) (Hsin p)) as Hs.
  replace (13421773 / 33554432) with (IZR 13421773 * Fp.bpow (-25))
    by (bpow_numeral; lra).
  apply round_bounded; try (simpl; lia).
  bpow_numeral. rewrite Rabs_mult, (Rabs_right (Np.float32 amp)) by lra.
  apply Rle_trans with (Np.float32 amp * 1); [ | lra ].
  apply Rmult_le_compat_l; lra.
Qed.

(** The correctly rounded sine stays within [[-1, 1]] and is accurate
    to [2^-52]. *)
Lemma rounded_sin_bounded : sine_bounded rounded_sin.
Proof.
  intros x. unfold rounded_sin, Np.float64.
  replace 1 with (IZR 1 * Fp.bpow 0) by (bpow_numeral; lra).
  apply round_bounded; try (simpl; lia).
  bpow_numeral. apply Rabs_le. pose proof (SIN_bound x). lra.
Qed.

Lemma rounded_sin_accurate : sine_accurate rounded_sin (Fp.bpow (-52)).
Proof.
  intros x. unfold rounded_sin.
  eapply Rle_trans; [ apply float64_error | ].
  assert (Hs : Rabs (sin x) <= 1).
  { apply Rabs_le. pose proof (SIN_bound x). lra. }
  assert (He : Fp.bpow (-1022) <= 1).
  { change 1 with (Fp.bpow 0). apply bpow_le. lia. }
  assert (H : Fp.bpow (-52) = 2 * Fp.bpow (-53)).
  { rewrite <- bpow_succ. reflexivity. }
  rewrite H. pose proof (bpow_pos (-53)). nra.
Qed.

(** Every sample of a chunk that is returned is within the [float32]
    ceiling. *)
Lemma siren_chunk_bound np_sin g st n samples p c st' :
  sine_bounded np_sin ->
  0 <= Alarm._amplitude g <= Siren.MAX_AMPLITUDE ->
  Siren.generate_siren_chunk np_sin g st n = Np.Ok ((samples, p, c), st') ->
  Forall (fun s => Rabs s <= Np.float32 Siren.MAX_AMPLITUDE) samples.
Proof.
  intros Hsin Hamp. rewrite float32_MAX_AMPLITUDE.
  destruct (Rle_dec (Alarm._amplitude g) 0) as [Hs | Hv].
  - rewrite siren_chunk_silent by exact Hs. intros [= <- _ _ _].
    apply Forall_forall. intros s Hin. apply repeat_spec in Hin. subst s.
    rewrite Rabs_R0. lra.
  - destruct (Np.fits_int64 (Alarm.sample_cnt st)) eqn:Hc.
    + destruct n as [ | n ].
      * rewrite siren_chunk_empty by (lra || assumption). discriminate.
      * destruct (siren_chunk_phases np_sin g st n) as (ps & Hlen & ->);
          [ lra | exact Hc | ].
        intros [= <- _ _ _].
        apply Forall_forall. intros s Hin. apply in_map_iff in Hin.
        destruct Hin as (q & <- & _). now apply sample_bound.
    + rewrite siren_chunk_overflow by (lra || assumption). discriminate.
Qed.

(** C6, as the code has it.  For a shared amplitude within
    [[0, MAX_AMPLITUDE]] and any state, every sample of the chunk produced
    has magnitude at most [float32(MAX_AMPLITUDE) = 0.4000000059604645],
    the [float32] the amplitude is cast to when it multiplies the
    [float32] sines; [np.sin] is taken to stay within [[-1, 1]].  The call
    produces its [num_samples] samples unless it raises: [IndexError] when
    it is voiced and asked for no sample, [OverflowError] when it is voiced
    and the sample counter no longer fits in [int64]. *)
Theorem amplitude_ceiling (np_sin : R -> R) (g : Alarm.Globals)
  (st : Alarm.SynthState) (num_samples : nat) :
  sine_bounded np_sin ->
  0 <= Alarm._amplitude g <= Siren.MAX_AMPLITUDE ->
  Np.float32 Siren.MAX_AMPLITUDE = 13421773 / 33554432 /\
  match Siren.generate_siren_chunk np_sin g st num_samples with
  | Np.Ok ((samples, _, _), _) =>
      length samples = num_samples /\
      Forall (fun s => Rabs s <= Np.float32 Siren.MAX_AMPLITUDE) samples
  | Np.IndexError =>
      0 < Alarm._amplitude g /\ num_samples = O
  | Np.OverflowError =>
      0 < Alarm._amplitude g /\ Np.fits_int64 (Alarm.sample_cnt st) = false
  end.
Proof.
  intros Hsin Hamp. split; [ exact float32_MAX_AMPLITUDE | ].
  destruct (Rle_dec (Alarm._amplitude g) 0) as [Hs | Hv].
  - rewrite siren_chunk_silent by exact Hs. split; [ apply repeat_length | ].
    apply Forall_forall. intros s Hin. apply repeat_spec in Hin. subst s.
    rewrite Rabs_R0, float32_MAX_AMPLITUDE. lra.
  - destruct (Np.fits_int64 (Alarm.sample_cnt st)) eqn:Hc.
    + destruct num_samples as [ | n ].
      * rewrite siren_chunk_empty by (lra || assumption).
        split; [ lra | reflexivity ].
      * destruct (siren_chunk_phases np_sin g st n) as (ps & Hlen & ->);
          [ lra | exact Hc | ].
        split; [ now rewrite length_map | ].
        rewrite float32_MAX_AMPLITUDE.
        apply Forall_forall. intros s Hin. apply in_map_iff in Hin.
        destruct Hin as (q & <- & _). now apply sample_bound.
    + rewrite siren_chunk_overflow by (lra || assumption).
      split; [ lra | reflexivity ].
Qed.

Lemma amplitude_ceiling_witness :
  Np.float32 Siren.MAX_AMPLITUDE = 13421773 / 33554432 /\
  match Siren.generate_siren_chunk rounded_sin full_volume crest 1 with
  | Np.Ok ((samples, _, _), _) =>
      length samples = 1%nat /\
      Forall (fun s => Rabs s <= Np.float32 Siren.MAX_AMPLITUDE) samples
  | Np.IndexError =>
      0 < Alarm._amplitude full_volume /\ 1%nat = O
  | Np.OverflowError =>
      0 < Alarm._amplitude full_volume /\
      Np.fits_int64 (Alarm.sample_cnt crest) = false
  end.
Proof.
  apply (amplitude_ceiling rounded_sin full_volume crest 1).
  - exact rounded_sin_bounded.
  - unfold full_volume. cbn [Alarm._amplitude]. rewrite MAX_AMPLITUDE_value.
    lra.
Defined.

(** *** The ceiling [MAX_AMPLITUDE] is exceeded *)

Lemma INR_fact_succ (n : nat) : INR (fact (S n)) = INR (S n) * INR (fact n).
Proof. rewrite fact_simpl, mult_INR. reflexivity. Qed.

(** The sine at [3217 / 2048], which is [4.5e-6] above [PI / 2], from
    its Taylor polynomial of degree 15. *)
Lemma sin_crest : 1 - / 67108864 <= sin (3217 / 2048).
Proof.
  destruct (pre_sin_bound (3217 / 2048) 3) as [Hlo _]; [ lra | lra | ].
  eapply Rle_trans; [ | exact Hlo ].
  unfold sin_approx. cbn [Nat.mul Nat.add sum_f_R0]. unfold sin_term.
  cbn [Nat.mul Nat.add].
  rewrite !INR_fact_succ. cbn [fact]. rewrite !INR_IZR_INZ.
  cbn [Z.of_nat Pos.of_succ_nat Pos.succ].
  cbn [pow]. lra.
Qed.

(** The [float32] nearest to a number that close to [1] is [1]. *)
Lemma float32_crest (y : R) :
  1 - / 33554432 < y < 1 + / 16777216 -> Np.float32 y = 1.
Proof.
  intros Hy. unfold Np.float32. destruct (Rlt_dec y 1) as [Hlt | Hge].
  - round_numeral 0%Z 16777216%Z.
  - round_numeral 1%Z 8388608%Z.
Qed.

(** At full volume, [MAX_AMPLITUDE] itself, the sample at the crest of the
    sine is [float32(MAX_AMPLITUDE) = 0.4000000059604645], above
    [MAX_AMPLITUDE = 0.4000000000000000222]: the amplitude is rounded up
    when it is cast to [float32] and the sine is [1] in [float32].  This
    holds for every [np.sin] accurate to [2^-30]. *)
Lemma amplitude_ceiling_exceeded :
  0 <= Alarm._amplitude full_volume <= Siren.MAX_AMPLITUDE /\
  Siren.MAX_AMPLITUDE < 13421773 / 33554432 /\
  forall np_sin, sine_accurate np_sin (/ 1073741824) ->
    Siren.generate_siren_chunk np_sin full_volume crest 1 =
    Np.Ok (([13421773 / 33554432], 3217 / 2048, 1%Z),
           {| Alarm.phase := 3217 / 2048; Alarm.sample_cnt := 1 |}).
Proof.
  split; [ | split ].
  - unfold full_volume. cbn [Alarm._amplitude]. rewrite MAX_AMPLITUDE_value. lra.
  - rewrite MAX_AMPLITUDE_value. lra.
  - intros np_sin Hacc.
    rewrite siren_chunk_voiced;
      [ | unfold full_volume; cbn [Alarm._amplitude];
          rewrite MAX_AMPLITUDE_value; lra
        | unfold Np.int64_min; simpl; lia
        | unfold Np.int64_max; simpl; lia ].
    unfold chunk_phases, crest.
    cbn [seq map partial_sum Alarm.phase Alarm.sample_cnt].
    rewrite phase_delta_low by lia.
    assert (Hx : Np.float64 (delta_low + 410058402425871 / 281474976710656)
                 = 3217 / 2048).
    { unfold Np.float64, delta_low. round_numeral 1%Z 7074257813110784%Z. }
    rewrite Hx. unfold sample, full_volume. cbn [Alarm._amplitude].
    rewrite float32_MAX_AMPLITUDE.
    rewrite (float32_crest (np_sin (3217 / 2048))).
    + assert (Hs : Np.float32 (13421773 / 33554432 * 1) = 13421773 / 33554432).
      { unfold Np.float32. round_numeral (-1)%Z 13421773%Z. }
      rewrite Hs. reflexivity.
    + pose proof (Hacc (3217 / 2048)) as H. apply Rabs_le_inv in H.
      pose proof sin_crest. pose proof (SIN_bound (3217 / 2048)). lra.
Qed.

(** ** Chunks in binary64: what the chunking changes *)

(** *** The sine moves no faster than its argument *)

Lemma sin_abs_le (t : R) : Rabs (sin t) <= Rabs t.
Proof.
  assert (Hpos : forall x, 0 < x -> Rabs (sin x) <= x).
  { intros x Hx. apply Rabs_le. split.
    - destruct (Rle_dec x PI) as [Hle | Hgt].
      + pose proof (sin_ge_0 x ltac:(lra) Hle). lra.
      + pose proof (SIN_bound x). pose proof PI2_1. lra.
    - left. now apply sin_lt_x. }
  destruct (Rtotal_order t 0) as [Hneg | [-> | Hp]].
  - replace (sin t) with (- sin (- t)) by (rewrite sin_neg; ring).
    rewrite Rabs_Ropp, (Rabs_left t) by lra. apply Hpos. lra.
  - rewrite sin_0, Rabs_R0. lra.
  - rewrite (Rabs_right t) by lra. now apply Hpos.
Qed.

Lemma sin_lipschitz (a b : R) : Rabs (sin a - sin b) <= Rabs (a - b).
Proof.
  rewrite form4, !Rabs_mult, (Rabs_right 2) by lra.
  pose proof (COS_bound ((a + b) / 2)) as Hc.
  pose proof (sin_abs_le ((a - b) / 2)) as Hs.
  assert (Hc' : Rabs (cos ((a + b) / 2)) <= 1) by (apply Rabs_le; lra).
  assert (Hh : Rabs ((a - b) / 2) = Rabs (a - b) / 2).
  { unfold Rdiv. rewrite Rabs_mult, (Rabs_right (/ 2)) by lra. reflexivity. }
  rewrite Hh in Hs.
  pose proof (Rabs_pos (cos ((a + b) / 2))).
  pose proof (Rabs_pos (sin ((a - b) / 2))).
  nra.
Qed.

(** *** The accumulated rounding *)

Lemma tol_growth_ge_1 (k : nat) : 1 <= (1 + Fp.bpow (-53)) ^ k.
Proof. apply pow_R1_Rle. pose proof (bpow_pos (-53)). lra. Qed.

Lemma tol_nonneg (b : R) (k : nat) : 0 <= b -> 0 <= tol b k.
Proof.
  intros Hb. unfold tol. pose proof (tol_growth_ge_1 k).
  pose proof (bpow_pos (-1022)). nra.
Qed.

Lemma tol_mono (b : R) (k k' : nat) :
  0 <= b -> (k <= k')%nat -> tol b k <= tol b k'.
Proof.
  intros Hb Hk. unfold tol.
  assert (H : (1 + Fp.bpow (-53)) ^ k <= (1 + Fp.bpow (-53)) ^ k').
  { apply Rle_pow; [ pose proof (bpow_pos (-53)); lra | exact Hk ]. }
  pose proof (bpow_pos (-1022)). nra.
Qed.

Lemma tol_add (b : R) (j k : nat) :
  0 <= b -> tol b j + tol b k <= tol b (j + k).
Proof.
  intros Hb. unfold tol. rewrite pow_add.
  pose proof (tol_growth_ge_1 j). pose proof (tol_growth_ge_1 k).
  pose proof (bpow_pos (-1022)).
  set (X := (1 + Fp.bpow (-53)) ^ j) in *.
  set (Y := (1 + Fp.bpow (-53)) ^ k) in *.
  assert (0 <= (X - 1) * (Y - 1)) by nra. nra.
Qed.

(** One more rounding of a value of magnitude at most [b]. *)
Lemma tol_step (b : R) (k : nat) (x' x : R) :
  0 <= b -> Rabs (x' - x) <= tol b k -> Rabs x <= b ->
  Rabs (Np.float64 x' - x) <= tol b (S k).
Proof.
  intros Hb Hx' Hx.
  pose proof (float64_error x') as Hr.
  assert (Hax : Rabs x' <= b + tol b k).
  { replace x' with (x + (x' - x)) by ring.
    eapply Rle_trans; [ apply Rabs_triang | lra ]. }
  assert (Hs : Rabs (Np.float64 x' - x)
               <= Rabs (Np.float64 x' - x') + Rabs (x' - x)).
  { replace (Np.float64 x' - x) with ((Np.float64 x' - x') + (x' - x)) by ring.
    apply Rabs_triang. }
  pose proof (bpow_pos (-53)) as Hu. pose proof (bpow_pos (-1022)) as He.
  assert (Ht : tol b (S k)
               = tol b k + Fp.bpow (-53) * (b + tol b k)
                 + Fp.bpow (-53) * Fp.bpow (-1022)).
  { unfold tol. cbn [pow]. ring. }
  rewrite Ht.
  assert (Fp.bpow (-53) * Rabs x' <= Fp.bpow (-53) * (b + tol b k)) by nra.
  lra.
Qed.

(** *** The increments and their sums *)

Lemma phase_delta_range (index : Z) : 0 <= Siren.phase_delta index <= / 4.
Proof.
  rewrite phase_delta_value. unfold delta_low, delta_high.
  destruct (_ <? _)%Z; lra.
Qed.

Lemma advance_range (c : Z) (t : nat) : 0 <= advance c t <= INR t / 4.
Proof.
  induction t as [ | t IH ].
  - simpl. lra.
  - cbn [advance]. rewrite S_INR.
    pose proof (phase_delta_range (c + Z.of_nat t)). lra.
Qed.

Lemma advance_app (c : Z) (a b : nat) :
  advance c (a + b) = advance c a + advance (c + Z.of_nat a) b.
Proof.
  induction b as [ | b IH ].
  - rewrite Nat.add_0_r. simpl. ring.
  - rewrite Nat.add_succ_r. cbn [advance]. rewrite IH.
    replace (c + Z.of_nat a + Z.of_nat b)%Z with (c + Z.of_nat (a + b))%Z by lia.
    ring.
Qed.

Lemma advance_mono (c : Z) (a b : nat) :
  (a <= b)%nat -> advance c a <= advance c b.
Proof.
  intros Hab. replace b with (a + (b - a))%nat by lia. rewrite advance_app.
  pose proof (advance_range (c + Z.of_nat a) (b - a)). lra.
Qed.

(** The running sums of a chunk against the unrounded ones. *)
Lemma partial_sum_error (b : R) (c : Z) (k : nat) :
  INR (S k) / 4 <= b ->
  Rabs (partial_sum c k - advance c (S k)) <= tol b k.
Proof.
  induction k as [ | k IH ]; intros Hb.
  - cbn [partial_sum advance]. rewrite Z.add_0_r.
    replace (_ - _) with 0 by ring. rewrite Rabs_R0. unfold tol. simpl. lra.
  - assert (Hb0 : 0 <= b).
    { pose proof (pos_INR (S (S k))). lra. }
    cbn [partial_sum].
    change (advance c (S (S k)))
      with (advance c (S k) + Siren.phase_delta (c + Z.of_nat (S k))).
    apply tol_step; [ exact Hb0 | | ].
    + replace (_ - _) with (partial_sum c k - advance c (S k)) by ring.
      apply IH. rewrite S_INR in Hb. lra.
    + change (advance c (S k) + Siren.phase_delta (c + Z.of_nat (S k)))
        with (advance c (S (S k))).
      pose proof (advance_range c (S (S k))).
      rewrite Rabs_right by lra. lra.
Qed.

Section Tolerance.

(** A run started at phase [p0] and position [c0]; [b] bounds the
    magnitude of every unrounded phase met. *)
Variables (p0 : R) (c0 : Z) (b : R).

(** Sample [k] of a chunk entered after [t] samples with a phase within
    [tol b t] of the unrounded one. *)
Lemma chunk_phase_error (p : R) (t k : nat) :
  Rabs p0 + INR (t + S k) / 4 <= b ->
  Rabs (p - ideal p0 c0 t) <= tol b t ->
  Rabs (Np.float64 (partial_sum (c0 + Z.of_nat t) k + p)
        - ideal p0 c0 (t + S k))
  <= tol b (t + S k).
Proof.
  intros Hb Hp.
  assert (Hb0 : 0 <= b).
  { pose proof (pos_INR (t + S k)). pose proof (Rabs_pos p0). lra. }
  assert (Hk : INR (S k) / 4 <= b).
  { rewrite plus_INR in Hb. pose proof (pos_INR t). pose proof (Rabs_pos p0).
    lra. }
  rewrite Nat.add_succ_r. apply tol_step; [ exact Hb0 | | ].
  - unfold ideal in *. rewrite <- Nat.add_succ_r, advance_app.
    replace (_ - _)
      with ((partial_sum (c0 + Z.of_nat t) k - advance (c0 + Z.of_nat t) (S k))
            + (p - (p0 + advance c0 t))) by ring.
    eapply Rle_trans; [ apply Rabs_triang | ].
    eapply Rle_trans; [ | rewrite Nat.add_comm; apply tol_add; exact Hb0 ].
    pose proof (partial_sum_error b (c0 + Z.of_nat t) k Hk). lra.
  - unfold ideal. rewrite <- Nat.add_succ_r.
    pose proof (advance_range c0 (t + S k)).
    eapply Rle_trans; [ apply Rabs_triang | ].
    rewrite (Rabs_right (advance _ _)) by lra. lra.
Qed.

End Tolerance.

(** *** Lists compared entry by entry *)

Lemma Forall2_map_seq {A B : Type} (P : A -> B -> Prop) (n : nat) :
  forall (f : nat -> A) (g : nat -> B) (a : nat),
    (forall k, (k < n)%nat -> P (f k) (g (a + k)%nat)) ->
    Forall2 P (map f (seq 0 n)) (map g (seq a n)).
Proof.
  induction n as [ | n IH ]; intros f g a H; [ constructor | ].
  cbn [seq map]. constructor.
  - rewrite <- (Nat.add_0_r a). apply H. lia.
  - rewrite <- seq_shift, map_map. apply IH.
    intros k Hk. replace (S a + k)%nat with (a + S k)%nat by lia.
    apply H. lia.
Qed.

Lemma Forall2_weaken {A B : Type} (P Q : A -> B -> Prop) (l : list A)
  (m : list B) :
  (forall a b, P a b -> Q a b) -> Forall2 P l m -> Forall2 Q l m.
Proof. intros H. induction 1; constructor; auto. Qed.

Lemma Forall2_join {A B : Type} (P Q : A -> B -> Prop) (l1 l2 : list A)
  (m : list B) :
  Forall2 P l1 m -> Forall2 Q l2 m ->
  Forall2 (fun a a' => exists x, P a x /\ Q a' x) l1 l2.
Proof.
  intros H. revert l2. induction H as [ | a x l1 m Hp _ IH ]; intros l2 Hq;
    inversion Hq; subst; constructor; eauto.
Qed.

Lemma Forall2_map_both {A B : Type} (P : B -> B -> Prop) (f : A -> B)
  (l1 l2 : list A) :
  Forall2 (fun a a' => P (f a) (f a')) l1 l2 ->
  Forall2 P (map f l1) (map f l2).
Proof. induction 1; constructor; auto. Qed.

Lemma Forall2_length_eq {A B : Type} (P : A -> B -> Prop) (l : list A)
  (m : list B) : Forall2 P l m -> length l = length m.
Proof. induction 1; simpl; congruence. Qed.

Section Runs.

Variables (p0 : R) (c0 : Z) (b : R) (total : nat).

Hypothesis bound : Rabs p0 + INR total / 4 <= b.

Lemma run_bound_nonneg : 0 <= b.
Proof. pose proof (pos_INR total). pose proof (Rabs_pos p0). lra. Qed.

Lemma run_bound_upto (t : nat) : (t <= total)%nat -> Rabs p0 + INR t / 4 <= b.
Proof. intros Ht. apply le_INR in Ht. lra. Qed.

(** Every phase of a chunk entered after [t] samples is within
    [tol b total] of the unrounded phase of its sample. *)
Lemma chunk_phases_close (p : R) (t len : nat) :
  (t + len <= total)%nat ->
  Rabs (p - ideal p0 c0 t) <= tol b t ->
  Forall2 (fun q q' => Rabs (q - q') <= tol b total)
    (chunk_phases p (c0 + Z.of_nat t) len)
    (map (ideal p0 c0) (seq (S t) len)).
Proof.
  intros Ht Hp. unfold chunk_phases. apply Forall2_map_seq.
  intros k Hk. cbn [Nat.add]. rewrite <- Nat.add_succ_r.
  eapply Rle_trans.
  - apply (chunk_phase_error p0 c0 b p t k); [ | exact Hp ].
    apply run_bound_upto. lia.
  - apply tol_mono; [ exact run_bound_nonneg | lia ].
Qed.

Lemma chunks_phases_close (n len : nat) :
  forall (p : R) (t : nat),
    (0 < len)%nat -> (t + n * len <= total)%nat ->
    Rabs (p - ideal p0 c0 t) <= tol b t ->
    Forall2 (fun q q' => Rabs (q - q') <= tol b total)
      (fst (chunks_phases p (c0 + Z.of_nat t) n len))
      (map (ideal p0 c0) (seq (S t) (n * len))) /\
    Rabs (snd (chunks_phases p (c0 + Z.of_nat t) n len)
          - ideal p0 c0 (t + n * len))
    <= tol b (t + n * len).
Proof.
  induction n as [ | n IH ]; intros p t Hlen Ht Hp.
  - cbn [chunks_phases fst snd Nat.mul seq map]. rewrite Nat.add_0_r.
    split; [ constructor | exact Hp ].
  - cbn [chunks_phases]. cbn [Nat.mul] in *.
    destruct len as [ | l ]; [ lia | ]. cbn [pred].
    set (p' := Np.float64 (partial_sum (c0 + Z.of_nat t) l + p)).
    assert (Hp' : Rabs (p' - ideal p0 c0 (t + S l)) <= tol b (t + S l)).
    { apply chunk_phase_error; [ apply run_bound_upto; lia | exact Hp ]. }
    destruct (IH p' (t + S l)%nat) as [Hrest Hfin]; [ lia | lia | exact Hp' | ].
    replace (c0 + Z.of_nat (t + S l))%Z
      with (c0 + Z.of_nat t + Z.of_nat (S l))%Z in * by lia.
    destruct (chunks_phases p' (c0 + Z.of_nat t + Z.of_nat (S l)) n (S l))
      as [rest final]. cbn [fst snd] in *.
    split.
    + rewrite seq_app, map_app. apply Forall2_app.
      * apply chunk_phases_close; [ lia | exact Hp ].
      * replace (S t + S l)%nat with (S (t + S l)) by lia. exact Hrest.
    + replace (t + (S l + n * S l))%nat with (t + S l + n * S l)%nat by lia.
      exact Hfin.
Qed.

End Runs.

(** *** From the phases to the samples *)

(** Two samples whose phases are within [d]: the two sines are within
    [2 * eps + d], each cast to [float32] adds [2^-24], the amplitude is
    below a half, and the product is rounded once more. *)
Lemma sample_close np_sin (eps amp p q d : R) :
  sine_bounded np_sin -> sine_accurate np_sin eps ->
  0 <= amp <= Siren.MAX_AMPLITUDE ->
  Rabs (p - q) <= d ->
  Rabs (sample np_sin amp p - sample np_sin amp q)
  <= eps + d / 2 + Fp.bpow (-22).
Proof.
  intros Hb Ha Hamp Hpq. unfold sample.
  pose proof (float32_amplitude_bound amp Hamp) as Hamp32.
  set (a := Np.float32 amp) in *.
  set (y := np_sin p). set (z := np_sin q).
  assert (Hyz : Rabs (y - z) <= 2 * eps + d).
  { replace (y - z) with ((y - sin p) + (sin p - sin q) + - (z - sin q)) by ring.
    eapply Rle_trans; [ apply Rabs_triang | ].
    eapply Rle_trans; [ apply Rplus_le_compat_r, Rabs_triang | ].
    rewrite Rabs_Ropp.
    pose proof (Ha p). pose proof (Ha q). pose proof (sin_lipschitz p q).
    unfold y, z. lra. }
  pose proof (Hb p) as Hy. pose proof (Hb q) as Hz. fold y in Hy. fold z in Hz.
  pose proof (float32_error y) as Ey. pose proof (float32_error z) as Ez.
  pose proof (float32_sine_bound y Hy) as By.
  pose proof (float32_sine_bound z Hz) as Bz.
  set (Y := Np.float32 y) in *. set (Z := Np.float32 z) in *.
  pose proof (bpow_pos (-24)) as Hu. pose proof (bpow_pos (-150)) as He.
  assert (HYZ : Rabs (Y - Z) <= 2 * eps + d + 2 * Fp.bpow (-24)
                                + 2 * Fp.bpow (-150)).
  { replace (Y - Z) with ((Y - y) + (y - z) + - (Z - z)) by ring.
    eapply Rle_trans; [ apply Rabs_triang | ].
    eapply Rle_trans; [ apply Rplus_le_compat_r, Rabs_triang | ].
    rewrite Rabs_Ropp. nra. }
  assert (HaYZ : Rabs (a * Y - a * Z)
                 <= (2 * eps + d + 2 * Fp.bpow (-24) + 2 * Fp.bpow (-150)) / 2).
  { replace (a * Y - a * Z) with (a * (Y - Z)) by ring.
    rewrite Rabs_mult, (Rabs_right a) by lra.
    pose proof (Rabs_pos (Y - Z)). nra. }
  assert (HaY : Rabs (a * Y) <= / 2).
  { rewrite Rabs_mult, (Rabs_right a) by lra. pose proof (Rabs_pos Y). nra. }
  assert (HaZ : Rabs (a * Z) <= / 2).
  { rewrite Rabs_mult, (Rabs_right a) by lra. pose proof (Rabs_pos Z). nra. }
  pose proof (float32_error (a * Y)) as EY.
  pose proof (float32_error (a * Z)) as EZ.
  replace (Np.float32 (a * Y) - Np.float32 (a * Z))
    with ((Np.float32 (a * Y) - a * Y) + (a * Y - a * Z)
          + - (Np.float32 (a * Z) - a * Z)) by ring.
  eapply Rle_trans; [ apply Rabs_triang | ].
  eapply Rle_trans; [ apply Rplus_le_compat_r, Rabs_triang | ].
  rewrite Rabs_Ropp.
  assert (Hc : 2 * Fp.bpow (-24) + 3 * Fp.bpow (-150) <= Fp.bpow (-22)).
  { bpow_numeral. lra. }
  nra.
Qed.

(** *** What the calls return, in terms of the phases *)

Lemma siren_chunks_voiced np_sin g (n l : nat) :
  0 < Alarm._amplitude g ->
  forall st,
    (Np.int64_min <= Alarm.sample_cnt st)%Z ->
    (Alarm.sample_cnt st + Z.of_nat (n * S l) <= Np.int64_max + 1)%Z ->
    Siren.generate_chunks np_sin g st n (S l) =
    Np.Ok (map (sample np_sin (Alarm._amplitude g))
             (fst (chunks_phases (Alarm.phase st) (Alarm.sample_cnt st)
                     n (S l))),
           {| Alarm.phase :=
                snd (chunks_phases (Alarm.phase st) (Alarm.sample_cnt st)
                       n (S l));
              Alarm.sample_cnt :=
                (Alarm.sample_cnt st + Z.of_nat (n * S l))%Z |}).
Proof.
  intros Hv. induction n as [ | n IH ]; intros st Hlo Hhi.
  - cbn [Siren.generate_chunks chunks_phases fst snd map Nat.mul].
    destruct st; cbn [Alarm.phase Alarm.sample_cnt]. now rewrite Z.add_0_r.
  - cbn [Siren.generate_chunks chunks_phases].
    rewrite siren_chunk_voiced by (try assumption; lia).
    rewrite IH; cbn [Alarm.phase Alarm.sample_cnt pred]; [ | lia | lia ].
    destruct (chunks_phases _ _ n (S l)) as [rest final].
    cbn [fst snd]. rewrite map_app. do 3 f_equal. lia.
Qed.

(** C1, as the code has it.  Under a constant shared amplitude [a] with
    [0 < a <= MAX_AMPLITUDE], from a state whose sample counter and the
    [n * len] positions after it fit in [int64], [n] consecutive chunks of
    [len] samples and the single chunk of [n * len] samples are both
    produced, with [n * len] samples each and the same final sample
    counter.  The phases and the samples agree up to the rounding of the
    running sums, which the chunking changes: the final phases are within
    twice [phase_tolerance], and corresponding samples within the accuracy
    [eps] of [np.sin] plus [phase_tolerance] plus [2^-22] for the two
    roundings to [float32].  ([n] and [len] are positive: a voiced call for
    zero samples raises [IndexError].) *)
Theorem chunk_size_independence (np_sin : R -> R) (eps : R)
  (g : Alarm.Globals) (st : Alarm.SynthState) (n len : nat) :
  sine_bounded np_sin -> sine_accurate np_sin eps ->
  0 < Alarm._amplitude g <= Siren.MAX_AMPLITUDE ->
  (0 < n)%nat -> (0 < len)%nat ->
  (Np.int64_min <= Alarm.sample_cnt st)%Z ->
  (Alarm.sample_cnt st + Z.of_nat (n * len) <= Np.int64_max + 1)%Z ->
  exists chunked st1 single st2,
    Siren.generate_chunks np_sin g st n len = Np.Ok (chunked, st1) /\
    Siren.generate_siren_chunk np_sin g st (n * len) =
      Np.Ok ((single, Alarm.phase st2, Alarm.sample_cnt st2), st2) /\
    length chunked = (n * len)%nat /\ length single = (n * len)%nat /\
    Alarm.sample_cnt st1 = (Alarm.sample_cnt st + Z.of_nat (n * len))%Z /\
    Alarm.sample_cnt st2 = Alarm.sample_cnt st1 /\
    Rabs (Alarm.phase st1 - Alarm.phase st2)
      <= 2 * phase_tolerance (Alarm.phase st) (n * len) /\
    Forall2
      (fun s s' =>
         Rabs (s - s')
         <= eps + phase_tolerance (Alarm.phase st) (n * len) + Fp.bpow (-22))
      chunked single.
Proof.
  intros Hb Ha Hamp Hn Hlen Hlo Hhi.
  destruct len as [ | l ]; [ lia | ].
  destruct (n * S l)%nat as [ | m ] eqn:Hm; [ lia | ].
  set (p0 := Alarm.phase st) in *. set (c0 := Alarm.sample_cnt st) in *.
  set (b := Rabs p0 + INR (S m) / 4).
  assert (Hbound : Rabs p0 + INR (S m) / 4 <= b) by (unfold b; lra).
  assert (Hstart : Rabs (p0 - ideal p0 c0 0) <= tol b 0).
  { unfold ideal, tol. cbn [advance pow].
    replace (p0 - (p0 + 0)) with 0 by ring. rewrite Rabs_R0. lra. }
  destruct (chunks_phases_close p0 c0 b (S m) Hbound n (S l) p0 0)
    as [Hch Hchf]; [ lia | lia | exact Hstart | ].
  destruct (chunks_phases_close p0 c0 b (S m) Hbound 1 (S m) p0 0)
    as [Hsi Hsif]; [ lia | lia | exact Hstart | ].
  rewrite Z.add_0_r in *. cbn [Nat.add] in *.
  rewrite Hm in *. rewrite Nat.mul_1_l in *.
  cbn [chunks_phases pred fst snd] in Hsi, Hsif. rewrite app_nil_r in Hsi.
  set (chunked := fst (chunks_phases p0 c0 n (S l))) in *.
  set (final := snd (chunks_phases p0 c0 n (S l))) in *.
  set (single := chunk_phases p0 c0 (S m)) in *.
  set (last := Np.float64 (partial_sum c0 m + p0)) in *.
  exists (map (sample np_sin (Alarm._amplitude g)) chunked),
    {| Alarm.phase := final; Alarm.sample_cnt := (c0 + Z.of_nat (S m))%Z |},
    (map (sample np_sin (Alarm._amplitude g)) single),
    {| Alarm.phase := last; Alarm.sample_cnt := (c0 + Z.of_nat (S m))%Z |}.
  cbn [Alarm.phase Alarm.sample_cnt].
  assert (Hlens : length single = S m) by apply chunk_phases_length.
  assert (Hlenc : length chunked = S m).
  { rewrite (Forall2_length_eq _ _ _ Hch), length_map, length_seq.
    reflexivity. }
  unfold phase_tolerance. fold b.
  repeat split.
  - rewrite <- Hm. unfold chunked, final, p0, c0.
    apply siren_chunks_voiced; [ lra | exact Hlo | rewrite Hm; exact Hhi ].
  - apply siren_chunk_voiced; [ lra | exact Hlo | exact Hhi ].
  - now rewrite length_map.
  - now rewrite length_map.
  - replace (final - last)
      with ((final - ideal p0 c0 (S m)) + - (last - ideal p0 c0 (S m))) by ring.
    eapply Rle_trans; [ apply Rabs_triang | ]. rewrite Rabs_Ropp. lra.
  - apply Forall2_map_both.
    eapply Forall2_weaken; [ | exact (Forall2_join _ _ _ _ _ Hch Hsi) ].
    intros q q' (x & Hq & Hq'). cbv beta in *.
    assert (Hqq : Rabs (q - q') <= 2 * tol b (S m)).
    { replace (q - q') with ((q - x) + - (q' - x)) by ring.
      eapply Rle_trans; [ apply Rabs_triang | ]. rewrite Rabs_Ropp. lra. }
    eapply Rle_trans.
    + apply (sample_close np_sin eps (Alarm._amplitude g) q q'
               (2 * tol b (S m)) Hb Ha); [ lra | exact Hqq ].
    + lra.
Qed.

Lemma chunk_size_independence_witness :
  exists chunked st1 single st2,
    Siren.generate_chunks rounded_sin full_volume fresh 2 3
      = Np.Ok (chunked, st1) /\
    Siren.generate_siren_chunk rounded_sin full_volume fresh (2 * 3) =
      Np.Ok ((single, Alarm.phase st2, Alarm.sample_cnt st2), st2) /\
    length chunked = (2 * 3)%nat /\ length single = (2 * 3)%nat /\
    Alarm.sample_cnt st1 = (Alarm.sample_cnt fresh + Z.of_nat (2 * 3))%Z /\
    Alarm.sample_cnt st2 = Alarm.sample_cnt st1 /\
    Rabs (Alarm.phase st1 - Alarm.phase st2)
      <= 2 * phase_tolerance (Alarm.phase fresh) (2 * 3) /\
    Forall2
      (fun s s' =>
         Rabs (s - s')
         <= Fp.bpow (-52) + phase_tolerance (Alarm.phase fresh) (2 * 3)
            + Fp.bpow (-22))
      chunked single.
Proof.
  apply (chunk_size_independence rounded_sin (Fp.bpow (-52))
           full_volume fresh 2 3).
  - exact rounded_sin_bounded.
  - exact rounded_sin_accurate.
  - unfold full_volume. cbn [Alarm._amplitude]. rewrite MAX_AMPLITUDE_value. lra.
  - lia.
  - lia.
  - unfold Np.int64_min. simpl. lia.
  - unfold Np.int64_max. simpl. lia.
Defined.

(** *** The chunking shows in the last digit *)

(** The running sums of the low tone, as binary64 computes them. *)
Lemma partial_sum_low_3 (c : Z) :
  (0 <= c)%Z -> (c + 2 < 8820)%Z ->
  partial_sum c 0 = 2053293497187393 / 18014398509481984 /\
  partial_sum c 1 = 2053293497187393 / 9007199254740992 /\
  partial_sum c 2 = 6159880491562179 / 18014398509481984.
Proof.
  intros H0 H2. cbn [partial_sum].
  rewrite !phase_delta_low by lia. unfold delta_low, Np.float64.
  assert (E1 : Fp.round Fp.binary64
                 (2053293497187393 / 18014398509481984
                  + 2053293497187393 / 18014398509481984)
               = 2053293497187393 / 9007199254740992).
  { round_numeral (-2)%Z 8213173988749572%Z. }
  rewrite E1.
  assert (E2 : Fp.round Fp.binary64
                 (2053293497187393 / 9007199254740992
                  + 2053293497187393 / 18014398509481984)
               = 6159880491562179 / 18014398509481984).
  { round_numeral (-1)%Z 6159880491562179%Z. }
  rewrite E2. repeat split.
Qed.

Lemma partial_sum_low_6 :
  partial_sum 0 5 = 6159880491562178 / 9007199254740992.
Proof.
  destruct (partial_sum_low_3 0) as (_ & _ & E2); [ lia | lia | ].
  cbn [partial_sum] in *. rewrite E2.
  rewrite !phase_delta_low by (simpl; lia). unfold delta_low, Np.float64.
  assert (E3 : Fp.round Fp.binary64
                 (6159880491562179 / 18014398509481984
                  + 2053293497187393 / 18014398509481984)
               = 2053293497187393 / 4503599627370496).
  { round_numeral (-1)%Z 8213173988749572%Z. }
  rewrite E3.
  assert (E4 : Fp.round Fp.binary64
                 (2053293497187393 / 4503599627370496
                  + 2053293497187393 / 18014398509481984)
               = 5133233742968482 / 9007199254740992).
  { round_tie 0%Z 5133233742968482%Z. }
  rewrite E4.
  round_tie 0%Z 6159880491562178%Z.
Qed.

(** From the initial state [[0.0, 0]], two chunks of three samples leave
    the phase [0.6838841150671658] and one chunk of six leaves
    [0.6838841150671657]: the sixth running sum of the single chunk comes
    out of two ties rounded to even, while the chunked run doubles the
    third one exactly. *)
Lemma chunk_size_dependence :
  0 < Alarm._amplitude full_volume <= Siren.MAX_AMPLITUDE /\
  6159880491562179 / 9007199254740992 <> 6159880491562178 / 9007199254740992 /\
  forall np_sin, exists chunked single,
    Siren.generate_chunks np_sin full_volume fresh 2 3 =
      Np.Ok (chunked,
             {| Alarm.phase := 6159880491562179 / 9007199254740992;
                Alarm.sample_cnt := 6 |}) /\
    Siren.generate_siren_chunk np_sin full_volume fresh 6 =
      Np.Ok ((single, 6159880491562178 / 9007199254740992, 6%Z),
             {| Alarm.phase := 6159880491562178 / 9007199254740992;
                Alarm.sample_cnt := 6 |}).
Proof.
  assert (Hv : 0 < Alarm._amplitude full_volume <= Siren.MAX_AMPLITUDE).
  { unfold full_volume. cbn [Alarm._amplitude]. rewrite MAX_AMPLITUDE_value. lra. }
  split; [ exact Hv | ]. split; [ lra | ]. intros np_sin.
  do 2 eexists. split.
  - rewrite siren_chunks_voiced;
      [ | lra | unfold Np.int64_min; simpl; lia | unfold Np.int64_max; simpl; lia ].
    cbn [chunks_phases fresh Alarm.phase Alarm.sample_cnt pred fst snd Z.of_nat
           Pos.of_succ_nat Pos.succ Z.add Nat.mul Nat.add].
    destruct (partial_sum_low_3 0) as (_ & _ & E0); [ lia | lia | ].
    destruct (partial_sum_low_3 3) as (_ & _ & E3); [ lia | lia | ].
    rewrite E0, E3. unfold Np.float64.
    assert (F1 : Fp.round Fp.binary64 (6159880491562179 / 18014398509481984 + 0)
                 = 6159880491562179 / 18014398509481984).
    { round_numeral (-1)%Z 6159880491562179%Z. }
    rewrite F1.
    assert (F2 : Fp.round Fp.binary64
                   (6159880491562179 / 18014398509481984
                    + 6159880491562179 / 18014398509481984)
                 = 6159880491562179 / 9007199254740992).
    { round_numeral 0%Z 6159880491562179%Z. }
    rewrite F2. reflexivity.
  - change 6%nat with (S 5).
    rewrite siren_chunk_voiced;
      [ | lra | unfold Np.int64_min; simpl; lia | unfold Np.int64_max; simpl; lia ].
    cbn [fresh Alarm.phase Alarm.sample_cnt].
    rewrite partial_sum_low_6. unfold Np.float64.
    assert (F1 : Fp.round Fp.binary64 (6159880491562178 / 9007199254740992 + 0)
                 = 6159880491562178 / 9007199254740992).
    { round_numeral 0%Z 6159880491562178%Z. }
    rewrite F1. reflexivity.
Qed.

(** ** The echo-wait loops of the alarm variant *)

Section AlarmWait.

Variable env : Env.
Variable timeout : R.
Variable v : level.

(** More fuel does not change the way a loop ended. *)
Lemma wait_echo_fuel_mono (fuel fuel' : nat) (hw : Hw) :
  (fuel <= fuel')%nat ->
  Alarm.wait_echo env timeout v fuel hw <> Alarm.Polling ->
  Alarm.wait_echo env timeout v fuel' hw = Alarm.wait_echo env timeout v fuel hw.
Proof.
  revert fuel' hw. induction fuel as [ | fuel IH ]; intros fuel' hw Hle Hend.
  - now elim Hend.
  - destruct fuel' as [ | fuel' ]; [ lia | ].
    simpl in *. destruct (level_eqb (echo_pin env (reads hw)) v); [ | reflexivity ].
    destruct (Rgt_dec (clock env (ticks hw)) timeout); [ reflexivity | ].
    apply IH; [ lia | exact Hend ].
Qed.

(** A loop has ended once the clock reading that is past the deadline has
    been consumed, whatever the echo pin does. *)
Lemma wait_echo_ends (d : nat) :
  forall (hw : Hw) (k : nat),
    clock env k > timeout -> k = (ticks hw + d)%nat ->
    forall fuel, (d < fuel)%nat ->
      Alarm.wait_echo env timeout v fuel hw <> Alarm.Polling.
Proof.
  induction d as [ | d IH ]; intros hw k Hk Hkd fuel Hfuel;
    (destruct fuel as [ | fuel ]; [ lia | ]); simpl;
    destruct (level_eqb (echo_pin env (reads hw)) v); try discriminate;
    destruct (Rgt_dec (clock env (ticks hw)) timeout) as [ | Hn ];
    try discriminate.
  - exfalso. apply Hn. rewrite Nat.add_0_r in Hkd. now subst k.
  - apply (IH _ k Hk); [ simpl; lia | lia ].
Qed.

(** A loop has ended once the read on which the pin is off the level
    waited on has been consumed, whatever the clock does. *)
Lemma wait_echo_leaves (n : nat) :
  forall (hw : Hw),
    echo_pin env (reads hw + n) <> v ->
    forall fuel, (n < fuel)%nat ->
      Alarm.wait_echo env timeout v fuel hw <> Alarm.Polling.
Proof.
  induction n as [ | n IH ]; intros hw Hoff fuel Hfuel;
    (destruct fuel as [ | fuel ]; [ lia | ]); simpl;
    destruct (level_eqb (echo_pin env (reads hw)) v) eqn:He;
    try discriminate;
    destruct (Rgt_dec (clock env (ticks hw)) timeout); try discriminate.
  - exfalso. apply Hoff. rewrite Nat.add_0_r.
    destruct (echo_pin env (reads hw)), v; (reflexivity || discriminate).
  - apply IH; [ | lia ]. simpl. now rewrite <- Nat.add_succ_r.
Qed.

(** While the pin stays at the level waited on, the only way out is the
    deadline. *)
Lemma wait_echo_held_deadline (d : nat) :
  forall (hw : Hw),
    held_past env v timeout (reads hw) (ticks hw) d ->
    forall fuel, (d < fuel)%nat ->
      exists hw', Alarm.wait_echo env timeout v fuel hw = Alarm.Deadline hw'.
Proof.
  induction d as [ | d IH ]; intros hw [Hheld Hk] fuel Hfuel;
    (destruct fuel as [ | fuel ]; [ lia | ]); simpl;
    generalize (Hheld O ltac:(lia)); rewrite Nat.add_0_r; intros ->;
    (replace (level_eqb v v) with true by (destruct v; reflexivity));
    destruct (Rgt_dec (clock env (ticks hw)) timeout) as [ | Hn ];
    try (eexists; reflexivity).
  - exfalso. apply Hn. now rewrite Nat.add_0_r in Hk.
  - apply IH; [ | lia ]. split; simpl.
    + intros j Hj. rewrite <- Nat.add_succ_r. apply Hheld. lia.
    + now rewrite <- Nat.add_succ_r.
Qed.

(** A loop leaves the output pins alone and only moves forward in the
    two input sequences. *)
Lemma wait_echo_edge_hw (fuel : nat) :
  forall hw hw',
    Alarm.wait_echo env timeout v fuel hw = Alarm.Edge hw' ->
    exists m,
      reads hw' = (reads hw + m + 1)%nat /\ ticks hw' = (ticks hw + m)%nat /\
      (forall j, (j < m)%nat -> echo_pin env (reads hw + j) = v) /\
      echo_pin env (reads hw + m) <> v /\
      led_pin hw' = led_pin hw /\ trigger_pin hw' = trigger_pin hw.
Proof.
  induction fuel as [ | fuel IH ]; intros hw hw' Hw; simpl in Hw;
    [ discriminate | ].
  destruct (level_eqb (echo_pin env (reads hw)) v) eqn:He.
  - destruct (Rgt_dec (clock env (ticks hw)) timeout); [ discriminate | ].
    apply IH in Hw. simpl in Hw.
    destruct Hw as (m & Hr & Ht & Hbefore & Hlast & Hled & Htrig).
    exists (S m). repeat split; try lia; try assumption.
    + intros j Hj. destruct j as [ | j ].
      * rewrite Nat.add_0_r.
        destruct (echo_pin env (reads hw)), v; (reflexivity || discriminate).
      * rewrite Nat.add_succ_r. apply (Hbefore j). lia.
    + now rewrite Nat.add_succ_r.
  - inversion Hw; subst hw'; clear Hw. exists O. simpl.
    repeat split; try lia.
    rewrite Nat.add_0_r. intros Heq. rewrite Heq in He. destruct v; discriminate.
Qed.

End AlarmWait.

(** ** [measure_distance_cm], alarm variant *)

Section AlarmMeasure.

Variable env : Env.

Lemma measure_distance_cm_fuel_mono (fuel fuel' : nat) (hw : Hw) r :
  (fuel <= fuel')%nat ->
  Alarm.measure_distance_cm env fuel hw = Returned r ->
  Alarm.measure_distance_cm env fuel' hw = Returned r.
Proof.
  intros Hle. unfold Alarm.measure_distance_cm. simpl.
  match goal with
  | |- context [Alarm.wait_echo env ?t LOW fuel ?h] =>
      destruct (Alarm.wait_echo env t LOW fuel h) as [hw1 | hw1 | ] eqn:E1;
      [ | | discriminate ];
      rewrite (wait_echo_fuel_mono env t LOW fuel fuel' h Hle)
        by (rewrite E1; discriminate);
      rewrite E1
  end; [ | trivial ].
  match goal with
  | |- context [Alarm.wait_echo env ?t HIGH fuel ?h] =>
      destruct (Alarm.wait_echo env t HIGH fuel h) as [hw2 | hw2 | ] eqn:E2;
      [ | | discriminate ];
      rewrite (wait_echo_fuel_mono env t HIGH fuel fuel' h Hle)
        by (rewrite E2; discriminate);
      rewrite E2
  end; trivial.
Qed.

(** With a clock that advances, a measurement returns for every behaviour
    of the echo pin, from some amount of fuel on. *)
Lemma measure_distance_cm_returns (hw : Hw) :
  clock_advances env ->
  exists fuel0, forall fuel, (fuel0 <= fuel)%nat ->
    exists r, Alarm.measure_distance_cm env fuel hw = Returned r.
Proof.
  intros Hclk.
  assert (Hone : exists fuel r,
             Alarm.measure_distance_cm env fuel hw = Returned r).
  { unfold Alarm.measure_distance_cm. simpl.
    match goal with
    | |- context [Alarm.wait_echo env ?t LOW _ ?h] =>
        set (timeout := t); set (hw0 := h)
    end.
    destruct (Hclk (ticks hw0) timeout) as (k1 & Hk1 & Hc1).
    pose (fuel1 := S (k1 - ticks hw0)).
    assert (H1 : Alarm.wait_echo env timeout LOW fuel1 hw0 <> Alarm.Polling).
    { apply (wait_echo_ends env timeout LOW (k1 - ticks hw0) hw0 k1 Hc1);
        unfold fuel1; lia. }
    destruct (Alarm.wait_echo env timeout LOW fuel1 hw0) as [hw1 | hw1 | ] eqn:E1;
      [ | exists fuel1; rewrite E1; eexists; reflexivity | now elim H1 ].
    set (hw1' := {| reads := reads hw1; ticks := S (ticks hw1);
                    trigger_pin := trigger_pin hw1; led_pin := led_pin hw1 |}).
    destruct (Hclk (ticks hw1') timeout) as (k2 & Hk2 & Hc2).
    pose (fuel2 := S (k2 - ticks hw1')).
    exists (Nat.max fuel1 fuel2).
    rewrite (wait_echo_fuel_mono env timeout LOW fuel1 _ hw0)
      by (try rewrite E1; try discriminate; lia).
    rewrite E1. fold hw1'.
    assert (H2 : Alarm.wait_echo env timeout HIGH (Nat.max fuel1 fuel2) hw1'
                 <> Alarm.Polling).
    { apply (wait_echo_ends env timeout HIGH (k2 - ticks hw1') hw1' k2 Hc2);
        unfold fuel2; lia. }
    destruct (Alarm.wait_echo env timeout HIGH (Nat.max fuel1 fuel2) hw1');
      [ eexists; reflexivity | eexists; reflexivity | now elim H2 ]. }
  destruct Hone as (fuel0 & r & Hr). exists fuel0. intros fuel Hfuel.
  exists r. now apply (measure_distance_cm_fuel_mono fuel0).
Qed.

(** Whatever a measurement returns lies between the two valid bounds. *)
Lemma measure_distance_cm_range (fuel : nat) (hw : Hw) d hw' :
  Alarm.measure_distance_cm env fuel hw = Returned (d, hw') ->
  IZR Alarm.MIN_VALID_DISTANCE_CM <= d <= IZR Alarm.MAX_VALID_DISTANCE_CM.
Proof.
  assert (Hbounds : IZR Alarm.MIN_VALID_DISTANCE_CM
                    <= IZR Alarm.MAX_VALID_DISTANCE_CM).
  { unfold Alarm.MIN_VALID_DISTANCE_CM, Alarm.MAX_VALID_DISTANCE_CM. lra. }
  unfold Alarm.measure_distance_cm. simpl.
  destruct (Alarm.wait_echo _ _ LOW _ _) as [hw1 | hw1 | ];
    [ | intros [= <- _]; lra | discriminate ].
  destruct (Alarm.wait_echo _ _ HIGH _ _) as [hw2 | hw2 | ];
    [ | intros [= <- _]; lra | discriminate ].
  intros [= <- _]. split; [ apply max_lower | now apply max_min_upper ].
Qed.

End AlarmMeasure.

(** C5, as the code has it.  The alarm variant's measurement returns
    exactly [MAX_VALID_DISTANCE_CM] when, on a pass of either wait loop,
    the pin still reads the level waited on and the clock read on that pass
    is past the 20 ms deadline set after the trigger pulse: in the
    rising-edge loop, or, after a rise, in the falling-edge loop.  It
    returns, no exception leaving it. *)
Theorem timeout_returns_max_distance (env : Env) (hw : Hw) :
  rise_misses_deadline env hw \/ fall_misses_deadline env hw ->
  exists fuel0, forall fuel, (fuel0 <= fuel)%nat ->
    exists hw',
      Alarm.measure_distance_cm env fuel hw =
      Returned (IZR Alarm.MAX_VALID_DISTANCE_CM, hw').
Proof.
  unfold rise_misses_deadline, fall_misses_deadline, deadline.
  intros [ (d & Hheld) | (n & d & Hlow & Hhigh & Hheld) ].
  - exists (S d). intros fuel Hfuel.
    unfold Alarm.measure_distance_cm. simpl.
    match goal with
    | |- context [Alarm.wait_echo env ?t LOW fuel ?h] =>
        destruct (wait_echo_held_deadline env t LOW d h Hheld fuel) as [hw' E];
        [ lia | rewrite E ]
    end.
    eexists; reflexivity.
  - exists (S (Nat.max n d)). intros fuel Hfuel.
    unfold Alarm.measure_distance_cm. simpl.
    match goal with
    | |- context [Alarm.wait_echo env ?t LOW fuel ?h] =>
        set (timeout := t) in *; set (hw0 := h)
    end.
    assert (H1 : Alarm.wait_echo env timeout LOW fuel hw0 <> Alarm.Polling).
    { apply (wait_echo_leaves env timeout LOW n); [ | lia ].
      simpl. rewrite Hhigh. discriminate. }
    destruct (Alarm.wait_echo env timeout LOW fuel hw0) as [hw1 | hw1 | ] eqn:E1;
      [ | eexists; reflexivity | now elim H1 ].
    apply wait_echo_edge_hw in E1.
    destruct E1 as (m & Hr & Ht & Hbefore & Hlast & _). simpl in *.
    assert (Hm : m = n).
    { destruct (Nat.lt_trichotomy m n) as [Hlt | [Heq | Hgt]].
      - now rewrite (Hlow m Hlt) in Hlast.
      - exact Heq.
      - rewrite (Hbefore n Hgt) in Hhigh. discriminate. }
    subst m.
    match goal with
    | |- context [Alarm.wait_echo env timeout HIGH fuel ?h] =>
        destruct (wait_echo_held_deadline env timeout HIGH d h) with (fuel := fuel)
          as [hw' E]; [ | lia | rewrite E; eexists; reflexivity ]
    end.
    simpl. rewrite Hr, Ht. destruct Hheld as [Hh Hc]. split; [ exact Hh | ].
    match goal with
    | |- clock env ?a > _ =>
        match type of Hc with
        | clock env ?b > _ => replace a with b by lia
        end
    end.
    exact Hc.
Qed.

(** ** [measure_distance_cm], simple variant *)

Lemma led_wait_echo_stuck (env : Env) (v : level) :
  echo_stuck env v ->
  forall fuel hw, Led.wait_echo env v fuel hw = None.
Proof.
  intros Hstuck. induction fuel as [ | fuel IH ]; intros hw; simpl;
    [ reflexivity | ].
  rewrite Hstuck.
  replace (level_eqb v v) with true by (destruct v; reflexivity).
  apply IH.
Qed.

Lemma led_measure_distance_cm_stuck (env : Env) (v : level) :
  echo_stuck env v ->
  forall fuel hw, Led.measure_distance_cm env fuel hw = Spinning.
Proof.
  intros Hstuck fuel hw. unfold Led.measure_distance_cm.
  destruct v.
  - now rewrite (led_wait_echo_stuck env LOW Hstuck).
  - destruct (Led.wait_echo env LOW fuel _); [ | reflexivity ]. simpl.
    now rewrite (led_wait_echo_stuck env HIGH Hstuck).
Qed.

Lemma led_wait_echo_ticks (env : Env) (v : level) (fuel : nat) :
  forall hw hw', Led.wait_echo env v fuel hw = Some hw' -> ticks hw' = ticks hw.
Proof.
  induction fuel as [ | fuel IH ]; intros hw hw'; simpl; [ discriminate | ].
  destruct (level_eqb (echo_pin env (reads hw)) v).
  - intros H. now apply IH in H.
  - now intros [= <-].
Qed.

(** What the simple variant returns is the rounded product itself, of two
    consecutive clock readings. *)
Lemma led_measure_distance_cm_value (env : Env) (fuel : nat) (hw : Hw) d hw' :
  Led.measure_distance_cm env fuel hw = Returned (d, hw') ->
  d = Py.round2 ((clock env (S (ticks hw)) - clock env (ticks hw)) * 17150).
Proof.
  unfold Led.measure_distance_cm.
  destruct (Led.wait_echo env LOW fuel _) as [hw1 | ] eqn:E1; [ | discriminate ].
  simpl.
  destruct (Led.wait_echo env HIGH fuel _) as [hw2 | ] eqn:E2; [ | discriminate ].
  apply led_wait_echo_ticks in E1, E2. simpl in E1, E2.
  intros [= <- _]. now rewrite E2, E1.
Qed.

(** ** The environments *)

Lemma empty_room_clock_advances : clock_advances empty_room.
Proof.
  intros n bound.
  exists (n + Z.to_nat (up (bound * 1000)))%nat. split; [ lia | ].
  simpl. destruct (archimed (bound * 1000)) as [Hup _].
  assert (Hz : IZR (up (bound * 1000))
               <= IZR (Z.of_nat (n + Z.to_nat (up (bound * 1000))))).
  { apply IZR_le. lia. }
  lra.
Qed.

Lemma empty_room_stuck : echo_stuck empty_room LOW.
Proof. intros k. reflexivity. Qed.

Lemma empty_room_misses_deadline : rise_misses_deadline empty_room power_on.
Proof.
  exists 20%nat. split; [ reflexivity | ].
  unfold deadline. simpl. lra.
Qed.

Lemma round2_unique (x : R) (z : Z) :
  IZR z - 1 / 2 < x * 100 < IZR z + 1 / 2 -> Py.round2 x = IZR z / 100.
Proof.
  intros H. unfold Py.round2. now rewrite (round_half_even_unique _ z H).
Qed.

(** Read every 30 ms, the pulse measures 514.5 cm; read every 50
    microseconds, 0.86 cm. *)
Lemma led_measure_slow_pulse :
  Led.measure_distance_cm (echo_pulse 0.03) 2 power_on =
  Returned (514.5, {| reads := 3; ticks := 2; trigger_pin := LOW;
                      led_pin := LOW |}).
Proof.
  unfold Led.measure_distance_cm. simpl.
  rewrite (round2_unique _ 51450) by lra.
  replace (51450 / 100) with 514.5 by lra. reflexivity.
Qed.

Lemma led_measure_fast_pulse :
  Led.measure_distance_cm (echo_pulse 0.00005) 2 power_on =
  Returned (0.86, {| reads := 3; ticks := 2; trigger_pin := LOW;
                     led_pin := LOW |}).
Proof.
  unfold Led.measure_distance_cm. simpl.
  rewrite (round2_unique _ 86) by lra.
  replace (86 / 100) with 0.86 by lra. reflexivity.
Qed.

(** The alarm variant on the fast pulse: 0.86 cm is clamped to 2 cm. *)
Lemma alarm_measure_fast_pulse :
  Alarm.measure_distance_cm (echo_pulse 0.00005) 2 power_on =
  Returned (2, {| reads := 3; ticks := 4; trigger_pin := LOW;
                  led_pin := LOW |}).
Proof.
  unfold Alarm.measure_distance_cm. simpl.
  destruct (Rgt_dec (1 * 0.00005) (0 * 0.00005 + 0.02)) as [H | _];
    [ exfalso; lra | ].
  simpl. rewrite (round2_unique _ 86) by lra.
  unfold Py.max, Py.min, Alarm.MIN_VALID_DISTANCE_CM,
    Alarm.MAX_VALID_DISTANCE_CM.
  decide_order. reflexivity.
Qed.

(** C4. Clamping: whatever the echo pin and the clock do, a value returned
    by the alarm variant's measurement lies in
    [[MIN_VALID_DISTANCE_CM, MAX_VALID_DISTANCE_CM]], on the rising-edge
    timeout, on the falling-edge timeout and on a completed pulse alike;
    and with a clock that advances the measurement does return. *)
Theorem measure_distance_cm_clamped (env : Env) (hw : Hw) :
  clock_advances env ->
  (forall fuel d hw',
     Alarm.measure_distance_cm env fuel hw = Returned (d, hw') ->
     IZR Alarm.MIN_VALID_DISTANCE_CM <= d <= IZR Alarm.MAX_VALID_DISTANCE_CM) /\
  (exists fuel0, forall fuel, (fuel0 <= fuel)%nat ->
     exists d hw',
       Alarm.measure_distance_cm env fuel hw = Returned (d, hw') /\
       IZR Alarm.MIN_VALID_DISTANCE_CM <= d <= IZR Alarm.MAX_VALID_DISTANCE_CM).
Proof.
  intros Hclk. split.
  - intros fuel d hw'. apply measure_distance_cm_range.
  - destruct (measure_distance_cm_returns env hw Hclk) as [fuel0 Hret].
    exists fuel0. intros fuel Hfuel.
    destruct (Hret fuel Hfuel) as [[d hw'] Hr].
    exists d, hw'. split; [ exact Hr | ].
    now apply (measure_distance_cm_range env fuel hw d hw').
Qed.

Lemma measure_distance_cm_clamped_witness :
  (forall fuel d hw',
     Alarm.measure_distance_cm empty_room fuel power_on = Returned (d, hw') ->
     IZR Alarm.MIN_VALID_DISTANCE_CM <= d <= IZR Alarm.MAX_VALID_DISTANCE_CM) /\
  (exists fuel0, forall fuel, (fuel0 <= fuel)%nat ->
     exists d hw',
       Alarm.measure_distance_cm empty_room fuel power_on = Returned (d, hw') /\
       IZR Alarm.MIN_VALID_DISTANCE_CM <= d <= IZR Alarm.MAX_VALID_DISTANCE_CM).
Proof.
  apply (measure_distance_cm_clamped empty_room power_on).
  exact empty_room_clock_advances.
Defined.

Lemma timeout_returns_max_distance_witness :
  exists fuel0, forall fuel, (fuel0 <= fuel)%nat ->
    exists hw',
      Alarm.measure_distance_cm empty_room fuel power_on =
      Returned (IZR Alarm.MAX_VALID_DISTANCE_CM, hw').
Proof.
  apply (timeout_returns_max_distance empty_room power_on).
  left. exists 20%nat. split; [ reflexivity | ].
  unfold deadline. simpl. lra.
Defined.

(** The deadline is looked at only while the pin holds its level: an edge
    found by the next read of the pin is taken, however late.  Here the
    echo is high from the first read, still high when the clock reads
    19.9 ms, and low on the next read, which is stamped at 20.7 ms, past
    the deadline of 20 ms: the falling edge has not come in time, and the
    measurement times the pulse and returns 346.43 cm. *)
Lemma timeout_misses_late_edge :
  pulse_seen late_echo power_on 0 1 /\
  clock late_echo 3 > deadline late_echo power_on /\
  Alarm.measure_distance_cm late_echo 2 power_on =
    Returned (346.43, {| reads := 3; ticks := 4; trigger_pin := LOW;
                         led_pin := LOW |}) /\
  346.43 <> IZR Alarm.MAX_VALID_DISTANCE_CM.
Proof.
  split; [ | split; [ | split ] ].
  - unfold pulse_seen, deadline. simpl. repeat split.
    + lia.
    + lia.
    + destruct j as [ | j ]; [ reflexivity | lia ].
    + destruct j as [ | j ]; [ simpl; lra | lia ].
  - unfold deadline. simpl. lra.
  - unfold Alarm.measure_distance_cm. simpl.
    destruct (Rgt_dec 0.0199 (0 + 0.02)) as [H | _]; [ exfalso; lra | ].
    simpl. rewrite (round2_unique _ 34643) by lra.
    unfold Py.max, Py.min, Alarm.MIN_VALID_DISTANCE_CM,
      Alarm.MAX_VALID_DISTANCE_CM.
    destruct (Rlt_dec (34643 / 100) 400) as [_ | H]; [ | exfalso; lra ].
    destruct (Rlt_dec 2 (34643 / 100)) as [_ | H]; [ | exfalso; lra ].
    reflexivity.
  - unfold Alarm.MAX_VALID_DISTANCE_CM. lra.
Qed.

(** C8. Echo-wait termination: given a clock that advances, the alarm
    variant's measurement returns for every sequence of echo-pin readings,
    its two loops being cut short by the deadline as soon as the clock is
    read past it; the simple
    variant's measurement never returns when the echo pin stays at one
    level, whatever the clock does.  On an echo pin stuck low, with the
    clock read once per millisecond, the first returns and the second
    does not. *)
Theorem echo_wait_termination :
  (forall env hw, clock_advances env ->
     exists fuel0, forall fuel, (fuel0 <= fuel)%nat ->
       exists r, Alarm.measure_distance_cm env fuel hw = Returned r) /\
  (forall env v hw, echo_stuck env v ->
     forall fuel, Led.measure_distance_cm env fuel hw = Spinning) /\
  (clock_advances empty_room /\ echo_stuck empty_room LOW /\
   (exists fuel r,
      Alarm.measure_distance_cm empty_room fuel power_on = Returned r) /\
   (forall fuel,
      Led.measure_distance_cm empty_room fuel power_on = Spinning)).
Proof.
  split; [ | split ].
  - intros env hw Hclk. now apply measure_distance_cm_returns.
  - intros env v hw Hstuck fuel. now apply (led_measure_distance_cm_stuck env v).
  - split; [ exact empty_room_clock_advances | ].
    split; [ exact empty_room_stuck | ]. split.
    + destruct (measure_distance_cm_returns empty_room power_on
                  empty_room_clock_advances) as [fuel0 Hret].
      exists fuel0. apply Hret. lia.
    + intros fuel.
      now apply (led_measure_distance_cm_stuck empty_room LOW empty_room_stuck).
Qed.

(** C10. The simple variant's measurement applies no clamping: it returns
    [round(pulse_duration * 17150, 2)] as it is, so that some echo pulses
    give more than 400 cm and others less than 2 cm. *)
Theorem led_measure_distance_cm_unclamped :
  (forall env fuel hw d hw',
     Led.measure_distance_cm env fuel hw = Returned (d, hw') ->
     d = Py.round2
           ((clock env (S (ticks hw)) - clock env (ticks hw)) * 17150)) /\
  (exists env fuel hw d hw',
     Led.measure_distance_cm env fuel hw = Returned (d, hw') /\
     d > IZR Alarm.MAX_VALID_DISTANCE_CM) /\
  (exists env fuel hw d hw',
     Led.measure_distance_cm env fuel hw = Returned (d, hw') /\
     d < IZR Alarm.MIN_VALID_DISTANCE_CM).
Proof.
  split; [ | split ].
  - intros env fuel hw d hw'. apply led_measure_distance_cm_value.
  - exists (echo_pulse 0.03), 2%nat, power_on. do 2 eexists.
    split; [ apply led_measure_slow_pulse | ].
    unfold Alarm.MAX_VALID_DISTANCE_CM. lra.
  - exists (echo_pulse 0.00005), 2%nat, power_on. do 2 eexists.
    split; [ apply led_measure_fast_pulse | ].
    unfold Alarm.MIN_VALID_DISTANCE_CM. lra.
Qed.

(** ** The control loop and the shutdown *)

Section ControlLoop.

Variable env : Env.

(** What one pass of the loop leaves behind, in terms of the distance it
    measured. *)
Lemma control_iteration_effect (fuel : nat) (m m' : Alarm.Machine) :
  Alarm.control_iteration env fuel m = Returned m' ->
  exists d hw1,
    Alarm.measure_distance_cm env fuel (Alarm.hw m) = Returned (d, hw1) /\
    Alarm._amplitude (Alarm.globals m') = Alarm.distance_to_amplitude d /\
    Alarm._stop_audio (Alarm.globals m') = Alarm._stop_audio (Alarm.globals m) /\
    led_pin (Alarm.hw m') =
      (if Rle_dec d (IZR Alarm.DISTANCE_THRESHOLD_CM) then HIGH else LOW).
Proof.
  unfold Alarm.control_iteration.
  destruct (Alarm.measure_distance_cm env fuel (Alarm.hw m))
    as [[d hw1] | ] eqn:E; [ | discriminate ].
  intros [= <-]. exists d, hw1. simpl.
  repeat split. destruct (Rle_dec d (IZR Alarm.DISTANCE_THRESHOLD_CM));
    reflexivity.
Qed.

Lemma control_iteration_fuel_mono (fuel fuel' : nat) (m m' : Alarm.Machine) :
  (fuel <= fuel')%nat ->
  Alarm.control_iteration env fuel m = Returned m' ->
  Alarm.control_iteration env fuel' m = Returned m'.
Proof.
  intros Hle. unfold Alarm.control_iteration.
  destruct (Alarm.measure_distance_cm env fuel (Alarm.hw m))
    as [r | ] eqn:E; [ | discriminate ].
  now rewrite (measure_distance_cm_fuel_mono env fuel fuel' _ r Hle E).
Qed.

Lemma control_loop_fuel_mono (fuel fuel' n : nat) :
  (fuel <= fuel')%nat ->
  forall m m',
    Alarm.control_loop env fuel n m = Returned m' ->
    Alarm.control_loop env fuel' n m = Returned m'.
Proof.
  intros Hle. induction n as [ | k IH ]; intros m m'; simpl; [ trivial | ].
  destruct (Alarm.control_iteration env fuel m) as [m1 | ] eqn:E;
    [ | discriminate ].
  rewrite (control_iteration_fuel_mono fuel fuel' m m1 Hle E). apply IH.
Qed.

(** With a clock that advances, any number of passes is completed. *)
Lemma control_loop_returns (n : nat) :
  clock_advances env ->
  forall m, exists fuel m', Alarm.control_loop env fuel n m = Returned m'.
Proof.
  intros Hclk. induction n as [ | k IH ]; intros m.
  - exists O, m. reflexivity.
  - destruct (measure_distance_cm_returns env (Alarm.hw m) Hclk) as [fuel1 Hret].
    destruct (Hret fuel1 (Nat.le_refl _)) as [[d hw1] Hm].
    assert (Hit : exists m1, Alarm.control_iteration env fuel1 m = Returned m1).
    { unfold Alarm.control_iteration. rewrite Hm. eexists; reflexivity. }
    destruct Hit as [m1 Hit].
    destruct (IH m1) as (fuel2 & m2 & Hloop).
    exists (Nat.max fuel1 fuel2), m2. simpl.
    rewrite (control_iteration_fuel_mono fuel1 _ m m1 (Nat.le_max_l _ _) Hit).
    apply (control_loop_fuel_mono fuel2); [ apply Nat.le_max_r | exact Hloop ].
Qed.

(** The loop keeps the shared amplitude within its range and never
    touches the stop flag. *)
Lemma control_loop_invariant (fuel n : nat) :
  forall m m',
    0 <= Alarm._amplitude (Alarm.globals m) <= Alarm.MAX_AMPLITUDE ->
    Alarm.control_loop env fuel n m = Returned m' ->
    0 <= Alarm._amplitude (Alarm.globals m') <= Alarm.MAX_AMPLITUDE /\
    Alarm._stop_audio (Alarm.globals m') = Alarm._stop_audio (Alarm.globals m).
Proof.
  induction n as [ | k IH ]; intros m m' Hm; simpl.
  - intros [= <-]. split; [ exact Hm | reflexivity ].
  - destruct (Alarm.control_iteration env fuel m) as [m1 | ] eqn:E;
      [ | discriminate ].
    intros Hloop.
    destruct (control_iteration_effect fuel m m1 E)
      as (d & hw1 & Hmeas & Hamp & Hstop & _).
    apply measure_distance_cm_range in Hmeas.
    assert (Hd : 0 <= d).
    { unfold Alarm.MIN_VALID_DISTANCE_CM in Hmeas. lra. }
    destruct (IH m1 m') as [Hr Hs]; [ | exact Hloop | ].
    + rewrite Hamp. now apply distance_to_amplitude_range.
    + split; [ exact Hr | congruence ].
Qed.

End ControlLoop.

(** One pass of the control loop on the fast pulse: a distance of 2 cm,
    so the LED is driven high and the amplitude written is 0.384. *)
Lemma control_iteration_fast_pulse (g : Alarm.Globals) :
  Alarm.control_iteration (echo_pulse 0.00005) 2
    {| Alarm.globals := g; Alarm.hw := power_on |} =
  Returned
    {| Alarm.globals :=
         {| Alarm._amplitude := 0.384;
            Alarm._stop_audio := Alarm._stop_audio g |};
       Alarm.hw := {| reads := 3; ticks := 4; trigger_pin := LOW;
                      led_pin := HIGH |} |}.
Proof.
  unfold Alarm.control_iteration. cbn [Alarm.hw].
  rewrite alarm_measure_fast_pulse.
  unfold Alarm.distance_to_amplitude, Alarm.DISTANCE_THRESHOLD_CM,
    Alarm.MAX_AMPLITUDE.
  decide_order. simpl. do 3 f_equal. lra.
Qed.

(** The control loop goes through its body with the stop flag set: it
    measures, writes the amplitude and lights the LED. *)
Lemma control_loop_ignores_stop_flag :
  Alarm._stop_audio (Alarm.globals stopped) = true /\
  Alarm.control_loop (echo_pulse 0.00005) 2 1 stopped =
  Returned
    {| Alarm.globals :=
         {| Alarm._amplitude := 0.384; Alarm._stop_audio := true |};
       Alarm.hw := {| reads := 3; ticks := 4; trigger_pin := LOW;
                      led_pin := HIGH |} |}.
Proof.
  split; [ reflexivity | ].
  unfold stopped, Alarm.finally, Alarm.initial. simpl.
  fold power_on. now rewrite control_iteration_fast_pulse.
Qed.

Lemma stop_flag_not_polled_by_control_loop :
  ~ (audio_loop_polls_stop_flag /\ control_loop_polls_stop_flag).
Proof.
  intros [_ Hpoll].
  destruct control_loop_ignores_stop_flag as [Hset Hrun].
  rewrite (Hpoll (echo_pulse 0.00005) 2%nat 1%nat stopped Hset) in Hrun.
  discriminate.
Qed.

Lemma finally_releases (m : Alarm.Machine) :
  Alarm._stop_audio (Alarm.globals (Alarm.finally m)) = true /\
  led_pin (Alarm.hw (Alarm.finally m)) = LOW /\
  Alarm._amplitude (Alarm.globals (Alarm.finally m)) =
    Alarm._amplitude (Alarm.globals m).
Proof. repeat split. Qed.

Lemma initial_amplitude_range :
  0 <= Alarm._amplitude (Alarm.globals Alarm.initial) <= Alarm.MAX_AMPLITUDE.
Proof. unfold Alarm.MAX_AMPLITUDE. simpl. lra. Qed.

(** C7. Shared-amplitude invariant: each value the control loop writes
    into the shared amplitude is [distance_to_amplitude] of a distance in
    [[MIN_VALID_DISTANCE_CM, MAX_VALID_DISTANCE_CM]]; every such value lies
    in [[0, MAX_AMPLITUDE]]; the shared amplitude starts at [0.0]; hence
    after any number of passes of the loop, and after the shutdown, it is
    within [[0, MAX_AMPLITUDE]].  The passes do complete when the clock
    advances. *)
Theorem shared_amplitude_invariant :
  (forall env fuel m m',
     Alarm.control_iteration env fuel m = Returned m' ->
     exists d,
       IZR Alarm.MIN_VALID_DISTANCE_CM <= d <= IZR Alarm.MAX_VALID_DISTANCE_CM /\
       Alarm._amplitude (Alarm.globals m') = Alarm.distance_to_amplitude d) /\
  (forall d,
     IZR Alarm.MIN_VALID_DISTANCE_CM <= d <= IZR Alarm.MAX_VALID_DISTANCE_CM ->
     0 <= Alarm.distance_to_amplitude d <= Alarm.MAX_AMPLITUDE) /\
  Alarm._amplitude (Alarm.globals Alarm.initial) = 0 /\
  (forall env fuel n m,
     Alarm.control_loop env fuel n Alarm.initial = Returned m ->
     0 <= Alarm._amplitude (Alarm.globals m) <= Alarm.MAX_AMPLITUDE) /\
  (forall env fuel n m,
     Alarm.main env fuel n = Returned m ->
     0 <= Alarm._amplitude (Alarm.globals m) <= Alarm.MAX_AMPLITUDE) /\
  (forall env n, clock_advances env ->
     exists fuel m, Alarm.control_loop env fuel n Alarm.initial = Returned m).
Proof.
  repeat apply conj.
  - intros env fuel m m' Hit.
    destruct (control_iteration_effect env fuel m m' Hit)
      as (d & hw1 & Hmeas & Hamp & _).
    exists d. split; [ | exact Hamp ].
    now apply (measure_distance_cm_range env fuel (Alarm.hw m) d hw1).
  - intros d [Hlo _]. apply distance_to_amplitude_range.
    unfold Alarm.MIN_VALID_DISTANCE_CM in Hlo. lra.
  - reflexivity.
  - intros env fuel n m Hloop.
    now apply (control_loop_invariant env fuel n Alarm.initial m
                 initial_amplitude_range).
  - intros env fuel n m. unfold Alarm.main.
    destruct (Alarm.control_loop env fuel n Alarm.initial) as [m1 | ] eqn:E;
      [ | discriminate ].
    intros [= <-].
    destruct (finally_releases m1) as (_ & _ & ->).
    now apply (control_loop_invariant env fuel n Alarm.initial m1
                 initial_amplitude_range).
  - intros env n Hclk. now apply control_loop_returns.
Qed.

(** The control loop does not look at the stop flag: with the flag set to
    either value it does the same to the amplitude and the hardware, and
    leaves the flag at that value. *)
Lemma control_iteration_flag_blind (env : Env) (fuel : nat) (b : bool)
  (m : Alarm.Machine) :
  Alarm.control_iteration env fuel (with_stop_flag b m) =
  outcome_map (with_stop_flag b) (Alarm.control_iteration env fuel m).
Proof.
  unfold Alarm.control_iteration, with_stop_flag. cbn [Alarm.hw Alarm.globals].
  destruct (Alarm.measure_distance_cm env fuel (Alarm.hw m)) as [[d hw1] | ];
    reflexivity.
Qed.

Lemma control_loop_flag_blind (env : Env) (fuel n : nat) (b : bool) :
  forall m,
    Alarm.control_loop env fuel n (with_stop_flag b m) =
    outcome_map (with_stop_flag b) (Alarm.control_loop env fuel n m).
Proof.
  induction n as [ | n IH ]; intros m; [ reflexivity | ].
  cbn [Alarm.control_loop]. rewrite control_iteration_flag_blind.
  destruct (Alarm.control_iteration env fuel m) as [m1 | ]; [ | reflexivity ].
  cbn [outcome_map]. apply IH.
Qed.

(** C9, as the code has it.  The audio loop tests [_stop_audio] at the
    top of each pass: it leaves when the flag is set and otherwise writes
    one more chunk and tests again.  The control loop is [while True]: it
    neither writes the flag, which it leaves as it found it, nor reads it,
    doing the same to the amplitude and to the hardware whichever value
    the flag has; it is left only through [KeyboardInterrupt], upon which
    the [finally] block sets the flag and forces the LED off, whatever the
    state the interrupt found. *)
Theorem stop_flag_protocol :
  audio_loop_polls_stop_flag /\
  (forall g seen st sink,
     Alarm._stop_audio g = false ->
     exists samples p c st',
       Alarm.generate_siren_chunk g st Alarm.CHUNK_SIZE =
         Py.Ok ((samples, p, c), st') /\
       Alarm.audio_loop (g :: seen) st sink =
         Alarm.audio_loop seen st' (sink ++ [samples])) /\
  (forall env fuel n m m',
     Alarm.control_loop env fuel n m = Returned m' ->
     Alarm._stop_audio (Alarm.globals m') =
       Alarm._stop_audio (Alarm.globals m)) /\
  (forall env fuel n b m,
     Alarm.control_loop env fuel n (with_stop_flag b m) =
     outcome_map (with_stop_flag b) (Alarm.control_loop env fuel n m)) /\
  (forall m,
     Alarm._stop_audio (Alarm.globals (Alarm.finally m)) = true /\
     led_pin (Alarm.hw (Alarm.finally m)) = LOW) /\
  (forall env n, clock_advances env ->
     exists fuel m,
       Alarm.main env fuel n = Returned m /\
       Alarm._stop_audio (Alarm.globals m) = true /\
       led_pin (Alarm.hw m) = LOW).
Proof.
  repeat apply conj.
  - intros g seen st sink Hstop. simpl. now rewrite Hstop.
  - intros g seen st sink Hrun.
    assert (Hlen : Alarm._amplitude g <= 0 \/ (0 < Alarm.CHUNK_SIZE)%nat).
    { right. unfold Alarm.CHUNK_SIZE. lia. }
    pose proof (generate_siren_chunk_synthesize g st Alarm.CHUNK_SIZE Hlen)
      as Hgen.
    do 4 eexists. split; [ exact Hgen | ].
    cbn [Alarm.audio_loop]. now rewrite Hrun, Hgen.
  - intros env fuel n. revert fuel. induction n as [ | k IH ];
      intros fuel m m'; simpl.
    + now intros [= <-].
    + destruct (Alarm.control_iteration env fuel m) as [m1 | ] eqn:E;
        [ | discriminate ].
      intros Hloop. rewrite (IH fuel m1 m' Hloop).
      destruct (control_iteration_effect env fuel m m1 E)
        as (d & hw1 & _ & _ & Hstop & _).
      exact Hstop.
  - intros env fuel n b m. apply control_loop_flag_blind.
  - intros m. split; reflexivity.
  - intros env n Hclk.
    destruct (control_loop_returns env n Hclk Alarm.initial) as (fuel & m & Hloop).
    exists fuel, (Alarm.finally m). unfold Alarm.main. rewrite Hloop.
    repeat split.
Qed.

(** * Further properties *)

(** ** Further properties of the alarm variant's measurement *)

Section WaitEffects.

Variable env : Env.
Variable timeout : R.
Variable v : level.

(** A loop that ends on the deadline has read the pin and the clock at
    least once and has left the output pins alone. *)
Lemma wait_echo_deadline_hw (fuel : nat) :
  forall hw hw',
    Alarm.wait_echo env timeout v fuel hw = Alarm.Deadline hw' ->
    (reads hw < reads hw')%nat /\ (ticks hw < ticks hw')%nat /\
    led_pin hw' = led_pin hw /\ trigger_pin hw' = trigger_pin hw.
Proof.
  induction fuel as [ | fuel IH ]; intros hw hw' Hw; simpl in Hw;
    [ discriminate | ].
  destruct (level_eqb (echo_pin env (reads hw)) v); [ | discriminate ].
  destruct (Rgt_dec (clock env (ticks hw)) timeout).
  - inversion Hw; subst hw'. simpl. repeat split; lia.
  - apply IH in Hw. simpl in Hw. destruct Hw as (Hr & Ht & Hl & Htr).
    repeat split; (lia || assumption).
Qed.

(** While the pin reads [v] and the clock readings checked are not past
    the deadline, the loop goes on; the read that finds the pin off [v]
    ends it. *)
Lemma wait_echo_edge_after (n : nat) :
  forall hw,
    (forall j, (j < n)%nat ->
       echo_pin env (reads hw + j) = v /\
       ~ clock env (ticks hw + j) > timeout) ->
    echo_pin env (reads hw + n) <> v ->
    forall fuel, (n < fuel)%nat ->
      Alarm.wait_echo env timeout v fuel hw =
      Alarm.Edge {| reads := reads hw + n + 1; ticks := ticks hw + n;
                    trigger_pin := trigger_pin hw; led_pin := led_pin hw |}.
Proof.
  induction n as [ | n IH ]; intros hw Hpass Hoff fuel Hfuel;
    (destruct fuel as [ | fuel ]; [ lia | ]); simpl.
  - rewrite Nat.add_0_r in Hoff.
    destruct (level_eqb (echo_pin env (reads hw)) v) eqn:He.
    + exfalso. apply Hoff.
      destruct (echo_pin env (reads hw)), v; (reflexivity || discriminate).
    + do 2 f_equal; lia.
  - destruct (Hpass O ltac:(lia)) as [He Hc]. rewrite Nat.add_0_r in He, Hc.
    rewrite He. replace (level_eqb v v) with true by (destruct v; reflexivity).
    destruct (Rgt_dec (clock env (ticks hw)) timeout); [ contradiction | ].
    rewrite IH; simpl.
    + do 2 f_equal; lia.
    + intros j Hj. rewrite <- !Nat.add_succ_r. apply Hpass. lia.
    + now rewrite <- Nat.add_succ_r.
    + lia.
Qed.

End WaitEffects.

(** X1. A measurement of the alarm variant that returns has read the echo
    pin at least once and the clock at least twice, leaves the trigger pin
    low and does not touch the LED. *)
Theorem measure_distance_cm_hardware (env : Env) (fuel : nat) (hw : Hw)
  (d : R) (hw' : Hw) :
  Alarm.measure_distance_cm env fuel hw = Returned (d, hw') ->
  trigger_pin hw' = LOW /\ led_pin hw' = led_pin hw /\
  (reads hw < reads hw')%nat /\ (ticks hw + 2 <= ticks hw')%nat.
Proof.
  unfold Alarm.measure_distance_cm. simpl.
  destruct (Alarm.wait_echo _ _ LOW _ _) as [hw1 | hw1 | ] eqn:E1;
    [ | | discriminate ].
  - apply wait_echo_edge_hw in E1.
    destruct E1 as (m1 & Hr1 & Ht1 & _ & _ & Hl1 & Htr1). simpl in *.
    destruct (Alarm.wait_echo _ _ HIGH _ _) as [hw2 | hw2 | ] eqn:E2;
      [ | | discriminate ].
    + apply wait_echo_edge_hw in E2.
      destruct E2 as (m2 & Hr2 & Ht2 & _ & _ & Hl2 & Htr2). simpl in *.
      intros [= _ <-]. simpl. repeat split; (congruence || lia).
    + apply wait_echo_deadline_hw in E2.
      destruct E2 as (Hr2 & Ht2 & Hl2 & Htr2). simpl in *.
      intros [= _ <-]. repeat split; (congruence || lia).
  - apply wait_echo_deadline_hw in E1.
    destruct E1 as (Hr1 & Ht1 & Hl1 & Htr1). simpl in *.
    intros [= _ <-]. repeat split; (congruence || lia).
Qed.

Lemma measure_distance_cm_hardware_witness :
  trigger_pin {| reads := 3; ticks := 4; trigger_pin := LOW; led_pin := LOW |}
    = LOW /\
  led_pin {| reads := 3; ticks := 4; trigger_pin := LOW; led_pin := LOW |}
    = led_pin power_on /\
  (reads power_on
   < reads {| reads := 3; ticks := 4; trigger_pin := LOW; led_pin := LOW |})%nat /\
  (ticks power_on + 2
   <= ticks {| reads := 3; ticks := 4; trigger_pin := LOW; led_pin := LOW |})%nat.
Proof.
  apply (measure_distance_cm_hardware (echo_pulse 0.00005) 2 power_on 2).
  exact alarm_measure_fast_pulse.
Defined.

(** The two loops on a whole echo pulse seen in time: each ends on its
    edge, and the clock is read once after each. *)
Lemma measure_distance_cm_on_pulse (env : Env) (hw : Hw) (n k fuel : nat) :
  pulse_seen env hw n k -> (n < fuel)%nat -> (k < fuel)%nat ->
  Alarm.measure_distance_cm env fuel hw =
  Returned
    (Py.max (IZR Alarm.MIN_VALID_DISTANCE_CM)
       (Py.min (IZR Alarm.MAX_VALID_DISTANCE_CM)
          (Py.round2 (raw_distance env hw n k))),
     {| reads := reads hw + n + k + 2; ticks := ticks hw + n + k + 3;
        trigger_pin := LOW; led_pin := led_pin hw |}).
Proof.
  intros (Hlow & Hrise & Hhigh & Hfall) Hn Hk.
  unfold Alarm.measure_distance_cm, raw_distance, deadline in *. simpl.
  rewrite (wait_echo_edge_after env _ LOW n); simpl;
    [ | exact Hlow | rewrite Hrise; discriminate | lia ].
  rewrite (wait_echo_edge_after env _ HIGH k); simpl.
  - replace (S (S (S (ticks hw + n + k)))) with (ticks hw + n + k + 3)%nat
      by lia.
    replace (S (S (ticks hw + n + k))) with (S (ticks hw + n + 1 + k)) by lia.
    replace (reads hw + n + 1 + k + 1)%nat with (reads hw + n + k + 2)%nat
      by lia.
    reflexivity.
  - intros j Hj. destruct (Hhigh j Hj) as [He Hc]. split; [ exact He | ].
    match goal with
    | |- ~ clock env ?a > _ =>
        replace a with (S (ticks hw) + n + 1 + j)%nat by lia
    end.
    exact Hc.
  - rewrite Hfall. discriminate.
  - lia.
Qed.

(** X2. When a whole echo pulse is seen in time, the alarm variant's
    measurement returns the distance of the pulse, rounded to two decimals
    and clamped to the valid range; the pulse is timed between the clock
    reading taken after the rising edge and the one taken after the
    falling edge, and the call has made [n + k + 2] reads of the pin and
    [n + k + 3] of the clock. *)
Theorem measure_distance_cm_pulse (env : Env) (hw : Hw) (n k : nat) :
  pulse_seen env hw n k ->
  forall fuel, (Nat.max n k < fuel)%nat ->
    Alarm.measure_distance_cm env fuel hw =
    Returned
      (Py.max (IZR Alarm.MIN_VALID_DISTANCE_CM)
         (Py.min (IZR Alarm.MAX_VALID_DISTANCE_CM)
            (Py.round2 (raw_distance env hw n k))),
       {| reads := reads hw + n + k + 2; ticks := ticks hw + n + k + 3;
          trigger_pin := LOW; led_pin := led_pin hw |}).
Proof.
  intros Hpulse fuel Hfuel.
  assert (Hn : (n < fuel)%nat) by lia.
  assert (Hk : (k < fuel)%nat) by lia.
  exact (measure_distance_cm_on_pulse env hw n k fuel Hpulse Hn Hk).
Qed.

Lemma echo_pulse_seen : pulse_seen (echo_pulse 0.00005) power_on 1 0.
Proof.
  unfold pulse_seen, deadline. simpl. repeat split.
  - destruct j as [ | j ]; [ reflexivity | lia ].
  - destruct j as [ | j ]; [ simpl; lra | lia ].
  - lia.
  - lia.
Qed.

Lemma measure_distance_cm_pulse_witness :
  Alarm.measure_distance_cm (echo_pulse 0.00005) 2 power_on =
  Returned
    (Py.max (IZR Alarm.MIN_VALID_DISTANCE_CM)
       (Py.min (IZR Alarm.MAX_VALID_DISTANCE_CM)
          (Py.round2 (raw_distance (echo_pulse 0.00005) power_on 1 0))),
     {| reads := reads power_on + 1 + 0 + 2;
        ticks := ticks power_on + 1 + 0 + 3;
        trigger_pin := LOW; led_pin := led_pin power_on |}).
Proof.
  apply (measure_distance_cm_pulse (echo_pulse 0.00005) power_on 1 0).
  - exact echo_pulse_seen.
  - simpl. lia.
Defined.

(** ** Rounding against a threshold *)

(** With two decimals kept, 50.005 still rounds down to 50.00 and 49.995 up
    to 50.00. *)
Lemma round2_le_threshold (x : R) : Py.round2 x <= 50 <-> x <= 50.005.
Proof.
  unfold Py.round2.
  assert (H : (Py.round_half_even (x * 100) <= 5000)%Z <-> x <= 50.005).
  { rewrite round_half_even_le. split.
    - intros [H | [H _]]; lra.
    - intros H. destruct (Rle_lt_or_eq_dec _ _ H) as [Hlt | Heq].
      + left. lra.
      + right. split; [ lra | reflexivity ]. }
  rewrite <- H. split.
  - intros Hle. apply le_IZR. lra.
  - intros Hle. apply IZR_le in Hle. lra.
Qed.

Lemma round2_lt_threshold (x : R) : Py.round2 x < 50 <-> x < 49.995.
Proof.
  unfold Py.round2.
  assert (H : (Py.round_half_even (x * 100) <= 4999)%Z <-> x < 49.995).
  { rewrite round_half_even_le. split.
    - intros [H | [_ H]]; [ lra | discriminate ].
    - intros H. left. lra. }
  rewrite <- H. split.
  - intros Hlt. assert (H' : (Py.round_half_even (x * 100) < 5000)%Z).
    { apply lt_IZR. lra. }
    lia.
  - intros Hle. apply IZR_le in Hle. lra.
Qed.

(** ** Further properties of the control loops *)

(** What holds after every pass holds after any number of passes. *)
Lemma control_loop_establishes (env : Env) (fuel : nat)
  (P : Alarm.Machine -> Prop) :
  (forall m m', Alarm.control_iteration env fuel m = Returned m' -> P m') ->
  forall n m m',
    P m -> Alarm.control_loop env fuel n m = Returned m' -> P m'.
Proof.
  intros Hstep. induction n as [ | n IH ]; intros m m' Hm; simpl.
  - now intros [= <-].
  - destruct (Alarm.control_iteration env fuel m) as [m1 | ] eqn:E;
      [ | discriminate ].
    apply IH. now apply (Hstep m m1).
Qed.

Lemma distance_to_amplitude_at_min :
  Alarm.distance_to_amplitude (IZR Alarm.MIN_VALID_DISTANCE_CM) = 0.384.
Proof.
  unfold Alarm.distance_to_amplitude, Alarm.MIN_VALID_DISTANCE_CM,
    Alarm.DISTANCE_THRESHOLD_CM, Alarm.MAX_AMPLITUDE.
  decide_order. lra.
Qed.

Lemma distance_to_amplitude_pos (d : R) :
  0 < Alarm.distance_to_amplitude d <-> d < IZR Alarm.DISTANCE_THRESHOLD_CM.
Proof.
  unfold Alarm.distance_to_amplitude, Alarm.DISTANCE_THRESHOLD_CM,
    Alarm.MAX_AMPLITUDE.
  destruct (Rgt_dec d 50); split; intros H; lra.
Qed.

(** X3. The control loop never asks for full volume: the distance being
    clamped from below at [MIN_VALID_DISTANCE_CM], the amplitude it writes
    is at most [distance_to_amplitude 2 = 0.384], short of
    [MAX_AMPLITUDE = 0.4]; and 0.384 is written for an echo that close. *)
Theorem control_loop_amplitude_cap :
  (forall env fuel n m,
     Alarm.control_loop env fuel n Alarm.initial = Returned m ->
     Alarm._amplitude (Alarm.globals m)
     <= Alarm.distance_to_amplitude (IZR Alarm.MIN_VALID_DISTANCE_CM)) /\
  Alarm.distance_to_amplitude (IZR Alarm.MIN_VALID_DISTANCE_CM) = 0.384 /\
  0.384 < Alarm.MAX_AMPLITUDE /\
  (exists env fuel n m,
     Alarm.control_loop env fuel n Alarm.initial = Returned m /\
     Alarm._amplitude (Alarm.globals m) = 0.384).
Proof.
  repeat apply conj.
  - intros env fuel n m.
    apply (control_loop_establishes env fuel
             (fun m => Alarm._amplitude (Alarm.globals m)
                       <= Alarm.distance_to_amplitude
                            (IZR Alarm.MIN_VALID_DISTANCE_CM))).
    + intros m0 m1 Hit.
      destruct (control_iteration_effect env fuel m0 m1 Hit)
        as (d & hw1 & Hmeas & -> & _).
      apply measure_distance_cm_range in Hmeas.
      apply distance_to_amplitude_antitone; [ | lra ].
      unfold Alarm.MIN_VALID_DISTANCE_CM. lra.
    + rewrite distance_to_amplitude_at_min. simpl. lra.
  - exact distance_to_amplitude_at_min.
  - unfold Alarm.MAX_AMPLITUDE. lra.
  - exists (echo_pulse 0.00005), 2%nat, 1%nat. eexists. split.
    + simpl. unfold Alarm.initial. fold power_on.
      rewrite control_iteration_fast_pulse. reflexivity.
    + reflexivity.
Qed.

(** X4. While the control loop runs, the LED and the siren agree: whenever
    the shared amplitude is positive the LED is on, and whenever the LED is
    off the amplitude is zero.  The shutdown breaks the agreement: the
    [finally] block forces the LED off and leaves the amplitude as the
    last pass wrote it. *)
Theorem led_follows_siren :
  (forall env fuel n m,
     Alarm.control_loop env fuel n Alarm.initial = Returned m ->
     (0 < Alarm._amplitude (Alarm.globals m) -> led_pin (Alarm.hw m) = HIGH) /\
     (led_pin (Alarm.hw m) = LOW -> Alarm._amplitude (Alarm.globals m) = 0)) /\
  (exists env fuel n m,
     Alarm.main env fuel n = Returned m /\
     led_pin (Alarm.hw m) = LOW /\
     0 < Alarm._amplitude (Alarm.globals m)).
Proof.
  split.
  - intros env fuel n m.
    apply (control_loop_establishes env fuel
             (fun m =>
                (0 < Alarm._amplitude (Alarm.globals m) ->
                 led_pin (Alarm.hw m) = HIGH) /\
                (led_pin (Alarm.hw m) = LOW ->
                 Alarm._amplitude (Alarm.globals m) = 0))).
    + intros m0 m1 Hit.
      destruct (control_iteration_effect env fuel m0 m1 Hit)
        as (d & hw1 & _ & -> & _ & ->).
      destruct (Rle_dec d (IZR Alarm.DISTANCE_THRESHOLD_CM)) as [Hd | Hd].
      * split; [ reflexivity | discriminate ].
      * split.
        -- intros Hpos. apply distance_to_amplitude_pos in Hpos. lra.
        -- intros _. apply distance_to_amplitude_far. lra.
    + simpl. split; [ lra | reflexivity ].
  - exists (echo_pulse 0.00005), 2%nat, 1%nat. eexists. split.
    + unfold Alarm.main. simpl. unfold Alarm.initial. fold power_on.
      rewrite control_iteration_fast_pulse. reflexivity.
    + simpl. split; [ reflexivity | lra ].
Qed.

Lemma clamp_le_threshold (r : R) :
  Py.max (IZR Alarm.MIN_VALID_DISTANCE_CM)
    (Py.min (IZR Alarm.MAX_VALID_DISTANCE_CM) r) <= 50 <-> r <= 50.
Proof.
  unfold Py.max, Py.min, Alarm.MIN_VALID_DISTANCE_CM,
    Alarm.MAX_VALID_DISTANCE_CM.
  destruct (Rlt_dec r 400); destruct (Rlt_dec 2 _); split; intros H; lra.
Qed.

Lemma clamp_lt_threshold (r : R) :
  Py.max (IZR Alarm.MIN_VALID_DISTANCE_CM)
    (Py.min (IZR Alarm.MAX_VALID_DISTANCE_CM) r) < 50 <-> r < 50.
Proof.
  unfold Py.max, Py.min, Alarm.MIN_VALID_DISTANCE_CM,
    Alarm.MAX_VALID_DISTANCE_CM.
  destruct (Rlt_dec r 400); destruct (Rlt_dec 2 _); split; intros H; lra.
Qed.

(** X5. The thresholds of a pass of the alarm variant on a whole echo
    pulse, in terms of the distance before rounding: the LED is lit exactly
    up to 50.005 cm and the siren sounds exactly below 49.995 cm, the
    comparisons being made on the distance rounded to two decimals.  From
    49.995 cm to 50.005 cm the LED is on and the siren silent. *)
Theorem control_iteration_thresholds (env : Env) (m : Alarm.Machine)
  (n k : nat) :
  pulse_seen env (Alarm.hw m) n k ->
  forall fuel, (Nat.max n k < fuel)%nat ->
    exists m',
      Alarm.control_iteration env fuel m = Returned m' /\
      (led_pin (Alarm.hw m') = HIGH <->
       raw_distance env (Alarm.hw m) n k <= 50.005) /\
      (0 < Alarm._amplitude (Alarm.globals m') <->
       raw_distance env (Alarm.hw m) n k < 49.995).
Proof.
  intros Hpulse fuel Hfuel.
  pose proof (measure_distance_cm_on_pulse env (Alarm.hw m) n k fuel Hpulse
                ltac:(lia) ltac:(lia)) as Hmeas.
  unfold Alarm.control_iteration. rewrite Hmeas.
  eexists. split; [ reflexivity | ]. simpl. split.
  - rewrite <- round2_le_threshold, <- clamp_le_threshold.
    unfold Alarm.DISTANCE_THRESHOLD_CM.
    destruct (Rle_dec _ 50) as [Hd | Hd]; simpl; split; intros H;
      (reflexivity || discriminate || lra || contradiction).
  - rewrite distance_to_amplitude_pos, <- round2_lt_threshold,
      <- clamp_lt_threshold.
    unfold Alarm.DISTANCE_THRESHOLD_CM. reflexivity.
Qed.

Lemma control_iteration_thresholds_witness :
  exists m',
    Alarm.control_iteration (echo_pulse 0.00005) 2 Alarm.initial
      = Returned m' /\
    (led_pin (Alarm.hw m') = HIGH <->
     raw_distance (echo_pulse 0.00005) (Alarm.hw Alarm.initial) 1 0
     <= 50.005) /\
    (0 < Alarm._amplitude (Alarm.globals m') <->
     raw_distance (echo_pulse 0.00005) (Alarm.hw Alarm.initial) 1 0
     < 49.995).
Proof.
  apply (control_iteration_thresholds (echo_pulse 0.00005) Alarm.initial 1 0).
  - exact echo_pulse_seen.
  - simpl. lia.
Defined.

(** ** The control loop of the simple variant *)

Lemma led_control_iteration_effect (env : Env) (fuel : nat) (hw : Hw)
  (d : R) (hw' : Hw) :
  Led.control_iteration env fuel hw = Returned (d, hw') ->
  d = Py.round2 ((clock env (S (ticks hw)) - clock env (ticks hw)) * 17150) /\
  led_pin hw' = (if Rle_dec d (IZR Led.DISTANCE_THRESHOLD_CM) then HIGH else LOW).
Proof.
  unfold Led.control_iteration.
  destruct (Led.measure_distance_cm env fuel hw) as [[d1 hw1] | ] eqn:E;
    [ | discriminate ].
  apply led_measure_distance_cm_value in E. intros [= <- <-].
  split; [ exact E | ].
  destruct (Rle_dec d1 (IZR Led.DISTANCE_THRESHOLD_CM)); reflexivity.
Qed.

(** With the clock stepping back a millisecond per reading, the simple
    variant measures a negative distance. *)
Lemma led_measure_backward_clock :
  Led.measure_distance_cm (echo_pulse (-0.001)) 2 power_on =
  Returned (-17.15, {| reads := 3; ticks := 2; trigger_pin := LOW;
                       led_pin := LOW |}).
Proof.
  unfold Led.measure_distance_cm. simpl.
  rewrite (round2_unique _ (-1715)) by lra.
  replace (-1715 / 100) with (-17.15) by lra. reflexivity.
Qed.

(** X6. A pass of the simple variant's loop lights the LED exactly when
    the distance before rounding is at most 50.005 cm: the threshold is
    applied to the rounded value.  Nothing keeps a negative distance, from
    a clock that stepped back, from lighting the LED.  The [finally] block
    turns the LED off whatever the loop left. *)
Theorem led_control_iteration_threshold :
  (forall env fuel hw d hw',
     Led.control_iteration env fuel hw = Returned (d, hw') ->
     (led_pin hw' = HIGH <->
      (clock env (S (ticks hw)) - clock env (ticks hw)) * 17150 <= 50.005)) /\
  (exists env fuel hw d hw',
     Led.control_iteration env fuel hw = Returned (d, hw') /\
     d < 0 /\ led_pin hw' = HIGH) /\
  (forall env fuel n hw hw',
     Led.main env fuel n hw = Returned hw' -> led_pin hw' = LOW).
Proof.
  split; [ | split ].
  - intros env fuel hw d hw' Hit.
    destruct (led_control_iteration_effect env fuel hw d hw' Hit) as [Hd ->].
    rewrite <- round2_le_threshold, <- Hd.
    unfold Led.DISTANCE_THRESHOLD_CM.
    destruct (Rle_dec d 50); split; intros H;
      (reflexivity || discriminate || lra || contradiction).
  - exists (echo_pulse (-0.001)), 2%nat, power_on. do 2 eexists.
    unfold Led.control_iteration. rewrite led_measure_backward_clock.
    unfold Led.DISTANCE_THRESHOLD_CM.
    destruct (Rle_dec (-17.15) 50) as [_ | Hn]; [ | exfalso; lra ].
    split; [ reflexivity | ]. split; [ lra | reflexivity ].
  - intros env fuel n hw hw'. unfold Led.main.
    destruct (Led.control_loop env fuel n hw); [ | discriminate ].
    now intros [= <-].
Qed.

(** ** Further properties of the synthesiser *)

(** X7. What a call of [generate_siren_chunk] can do, in numpy's
    arithmetic.  It raises [OverflowError] exactly when it is voiced and
    the sample counter does not fit in [int64]; it raises [IndexError]
    exactly when it is voiced, the counter fits and no sample is asked
    for.  Whenever it returns, the chunk has [num_samples] samples, the
    counter has advanced by [num_samples], and the phase and counter
    returned are the ones left in [state_ref]. *)
Theorem siren_chunk_outcome (np_sin : R -> R) (g : Alarm.Globals)
  (st : Alarm.SynthState) (num_samples : nat) :
  (Siren.generate_siren_chunk np_sin g st num_samples = Np.OverflowError <->
   0 < Alarm._amplitude g /\ Np.fits_int64 (Alarm.sample_cnt st) = false) /\
  (Siren.generate_siren_chunk np_sin g st num_samples = Np.IndexError <->
   0 < Alarm._amplitude g /\ Np.fits_int64 (Alarm.sample_cnt st) = true /\
   num_samples = O) /\
  (forall samples p c st',
     Siren.generate_siren_chunk np_sin g st num_samples
       = Np.Ok ((samples, p, c), st') ->
     length samples = num_samples /\
     c = (Alarm.sample_cnt st + Z.of_nat num_samples)%Z /\
     Alarm.phase st' = p /\ Alarm.sample_cnt st' = c).
Proof.
  destruct (Rle_dec (Alarm._amplitude g) 0) as [Hs | Hv].
  - rewrite siren_chunk_silent by exact Hs. repeat split; try discriminate.
    + intros [H _]; lra.
    + intros [H _]; lra.
    + injection H as <- _ _ _. apply repeat_length.
    + injection H as _ _ <- _. reflexivity.
    + injection H as _ <- _ <-. reflexivity.
    + injection H as _ _ <- <-. reflexivity.
  - assert (Hpos : 0 < Alarm._amplitude g) by lra.
    destruct (Np.fits_int64 (Alarm.sample_cnt st)) eqn:Hc.
    + destruct num_samples as [ | n ].
      * rewrite siren_chunk_empty by assumption.
        repeat split; try discriminate; try assumption.
        intros [_ H]; discriminate.
      * destruct (siren_chunk_phases np_sin g st n Hpos Hc) as (ps & Hlen & ->).
        repeat split; try discriminate.
        -- intros [_ H]; discriminate.
        -- intros (_ & _ & H); discriminate.
        -- injection H as <- _ _ _. now rewrite length_map.
        -- injection H as _ _ <- _. reflexivity.
        -- injection H as _ <- _ <-. reflexivity.
        -- injection H as _ _ <- <-. reflexivity.
    + rewrite siren_chunk_overflow by assumption.
      repeat split; try discriminate; try assumption.
      intros (_ & H & _); discriminate.
Qed.

Lemma cycle_len_value : Alarm.cycle_len = 17640%Z.
Proof. unfold Alarm.cycle_len. now rewrite half_cycle_samples_value. Qed.

(** X8. The tone pattern: each sample is at one of the two siren
    frequencies, the low one exactly on the first [half_cycle_samples =
    8820] positions (0.2 s) of each cycle of [cycle_len = 17640] samples
    (0.4 s), and the pattern repeats with that period, also for negative
    sample positions. *)
Theorem freq_at_pattern (index : Z) :
  Alarm.half_cycle_samples = 8820%Z /\ Alarm.cycle_len = 17640%Z /\
  (Alarm.freq_at index = Alarm.SIREN_FREQ_LOW \/
   Alarm.freq_at index = Alarm.SIREN_FREQ_HIGH) /\
  (Alarm.freq_at index = Alarm.SIREN_FREQ_LOW <->
   (index mod Alarm.cycle_len < Alarm.half_cycle_samples)%Z) /\
  (forall q : Z,
     Alarm.freq_at (index + q * Alarm.cycle_len) = Alarm.freq_at index).
Proof.
  split; [ exact half_cycle_samples_value | ].
  split; [ exact cycle_len_value | ].
  unfold Alarm.freq_at. repeat split.
  - destruct (_ <? _)%Z; [ left | right ]; reflexivity.
  - destruct (Z.ltb_spec (index mod Alarm.cycle_len) Alarm.half_cycle_samples);
      [ trivial | discriminate ].
  - destruct (Z.ltb_spec (index mod Alarm.cycle_len) Alarm.half_cycle_samples);
      [ reflexivity | lia ].
  - intros q. rewrite Z.mod_add; [ reflexivity | ].
    rewrite cycle_len_value. lia.
Qed.

(** X17. The tone pattern survives the floating-point computation of
    [half_cycle_samples]: [44100 * 0.4] is rounded to [17640.0], so the
    half cycle is 8820 samples and not 8819, and each position gets the
    frequency the exact computation gives it.  The phase increments of
    the two tones are the binary64 numbers [0.11398068584452764] and
    [0.1567234430362255]. *)
Theorem siren_tone_pattern (index : Z) :
  Siren.half_cycle_samples = 8820%Z /\ Siren.cycle_len = 17640%Z /\
  Siren.freq_at index = Alarm.freq_at index /\
  Siren.phase_delta index =
    (if (index mod 17640 <? 8820)%Z
     then 2053293497187393 / 18014398509481984
     else 5646557117265331 / 36028797018963968).
Proof.
  repeat split.
  - exact siren_half_cycle_samples_value.
  - unfold Siren.cycle_len. now rewrite siren_half_cycle_samples_value.
  - now rewrite siren_freq_at_value, freq_at_value.
  - apply phase_delta_value.
Qed.

(** X18. A silent call cannot raise, in numpy's arithmetic either: with
    the shared amplitude [<= 0] no array index is computed, so the call
    returns its [num_samples] zeros, the phase it was given and the
    counter advanced by [num_samples] even when the counter is beyond
    [int64]. *)
Theorem siren_chunk_silence (np_sin : R -> R) (g : Alarm.Globals)
  (st : Alarm.SynthState) (num_samples : nat) :
  Alarm._amplitude g <= 0 ->
  exists samples,
    Siren.generate_siren_chunk np_sin g st num_samples =
      Np.Ok ((samples, Alarm.phase st,
              (Alarm.sample_cnt st + Z.of_nat num_samples)%Z),
             {| Alarm.phase := Alarm.phase st;
                Alarm.sample_cnt :=
                  (Alarm.sample_cnt st + Z.of_nat num_samples)%Z |}) /\
    length samples = num_samples /\
    Forall (fun s => s = 0) samples.
Proof.
  intros Hs. exists (Py.np_zeros num_samples). repeat split.
  - now apply siren_chunk_silent.
  - apply repeat_length.
  - apply Forall_forall. intros s Hin. now apply repeat_spec in Hin.
Qed.

Lemma siren_chunk_silence_witness :
  exists samples,
    Siren.generate_siren_chunk rounded_sin muted
      {| Alarm.phase := 0; Alarm.sample_cnt := 2 ^ 63 |} Alarm.CHUNK_SIZE =
      Np.Ok ((samples, 0, (2 ^ 63 + Z.of_nat Alarm.CHUNK_SIZE)%Z),
             {| Alarm.phase := 0;
                Alarm.sample_cnt :=
                  (2 ^ 63 + Z.of_nat Alarm.CHUNK_SIZE)%Z |}) /\
    length samples = Alarm.CHUNK_SIZE /\
    Forall (fun s => s = 0) samples.
Proof.
  apply (siren_chunk_silence rounded_sin muted
           {| Alarm.phase := 0; Alarm.sample_cnt := 2 ^ 63 |}
           Alarm.CHUNK_SIZE).
  unfold muted. simpl. lra.
Defined.

(** X20. At the end of [int64] the chunking changes the outcome and not
    only the last digit: from a sample counter of [2^63 - 1], two chunks
    of one sample raise [OverflowError] on the second call, whose counter
    [2^63] no longer fits, while the single chunk of two samples is
    produced, its second index having wrapped around. *)
Theorem chunks_part_at_int64 (np_sin : R -> R) :
  Siren.generate_chunks np_sin full_volume brink 2 1 = Np.OverflowError /\
  exists samples p,
    Siren.generate_siren_chunk np_sin full_volume brink 2 =
    Np.Ok ((samples, p, (Np.int64_max + 2)%Z),
           {| Alarm.phase := p; Alarm.sample_cnt := (Np.int64_max + 2)%Z |}) /\
    length samples = 2%nat.
Proof.
  assert (Hv : 0 < Alarm._amplitude full_volume).
  { unfold full_volume. cbn [Alarm._amplitude].
    rewrite MAX_AMPLITUDE_value. lra. }
  split.
  - cbn [Siren.generate_chunks].
    destruct (siren_chunk_phases np_sin full_volume brink 0 Hv)
      as (ps & _ & ->); [ reflexivity | ].
    rewrite siren_chunk_overflow; [ reflexivity | exact Hv | reflexivity ].
  - destruct (siren_chunk_phases np_sin full_volume brink 1 Hv)
      as (ps & Hlen & ->); [ reflexivity | ].
    do 2 eexists. split; [ reflexivity | now rewrite length_map ].
Qed.

(** ** Further properties of the audio thread *)



Lemma siren_audio_loop_bound np_sin (seen : list Alarm.Globals) :
  sine_bounded np_sin ->
  Forall (fun g => 0 <= Alarm._amplitude g <= Siren.MAX_AMPLITUDE) seen ->
  forall st sink,
    Forall (Forall (fun s => Rabs s <= Np.float32 Siren.MAX_AMPLITUDE)) sink ->
    Forall (Forall (fun s => Rabs s <= Np.float32 Siren.MAX_AMPLITUDE))
      (snd (Siren.audio_loop np_sin seen st sink)).
Proof.
  intros Hsin. induction 1 as [ | g seen Hg Hseen IH ]; intros st sink Hsink;
    [ exact Hsink | ].
  cbn [Siren.audio_loop]. destruct (Alarm._stop_audio g); [ exact Hsink | ].
  destruct (Siren.generate_siren_chunk np_sin g st Alarm.CHUNK_SIZE)
    as [ [[[samples p] c] st'] | | ] eqn:E; try exact Hsink.
  apply IH. apply Forall_app. split; [ exact Hsink | ].
  constructor; [ | constructor ].
  exact (siren_chunk_bound np_sin g st _ samples p c st' Hsin Hg E).
Qed.

(** X12. Whatever the audio thread writes to the stream stays within the
    [float32] ceiling: when each shared amplitude it reads lies in
    [[0, MAX_AMPLITUDE]], every sample of every chunk written has magnitude
    at most [float32(MAX_AMPLITUDE)]; [np.sin] is taken to stay within
    [[-1, 1]]. *)
Theorem audio_thread_entry_bound (np_sin : R -> R)
  (seen : list Alarm.Globals) :
  sine_bounded np_sin ->
  Forall (fun g => 0 <= Alarm._amplitude g <= Siren.MAX_AMPLITUDE) seen ->
  Forall (Forall (fun s => Rabs s <= Np.float32 Siren.MAX_AMPLITUDE))
    (snd (Siren.audio_thread_entry np_sin seen)).
Proof.
  intros Hsin Hseen. unfold Siren.audio_thread_entry.
  apply siren_audio_loop_bound; [ exact Hsin | exact Hseen | constructor ].
Qed.

Lemma audio_thread_entry_bound_witness :
  Forall (Forall (fun s => Rabs s <= Np.float32 Siren.MAX_AMPLITUDE))
    (snd (Siren.audio_thread_entry rounded_sin [full_volume; muted])).
Proof.
  apply (audio_thread_entry_bound rounded_sin [full_volume; muted]).
  - exact rounded_sin_bounded.
  - repeat constructor; unfold full_volume, muted; cbn [Alarm._amplitude];
      rewrite ?MAX_AMPLITUDE_value; lra.
Defined.

(** With a sample counter that fits in [int64], a call for at least one
    sample returns, silent or voiced. *)
Lemma siren_chunk_returns np_sin g st n :
  (Np.int64_min <= Alarm.sample_cnt st <= Np.int64_max)%Z ->
  exists samples p,
    Siren.generate_siren_chunk np_sin g st (S n) =
    Np.Ok ((samples, p, (Alarm.sample_cnt st + Z.of_nat (S n))%Z),
           {| Alarm.phase := p;
              Alarm.sample_cnt := (Alarm.sample_cnt st + Z.of_nat (S n))%Z |}) /\
    length samples = S n.
Proof.
  intros Hc. destruct (Rle_dec (Alarm._amplitude g) 0) as [Hs | Hv].
  - rewrite siren_chunk_silent by exact Hs. do 2 eexists.
    split; [ reflexivity | apply repeat_length ].
  - assert (Hfits : Np.fits_int64 (Alarm.sample_cnt st) = true).
    { unfold Np.fits_int64. apply andb_true_iff. split; apply Z.leb_le; lia. }
    destruct (siren_chunk_phases np_sin g st n) as (ps & Hlen & ->);
      [ lra | exact Hfits | ].
    do 2 eexists. split; [ reflexivity | now rewrite length_map ].
Qed.

(** X19. In numpy's arithmetic the audio loop cannot fail while the sample
    counter fits in [int64]: as long as the counter it reaches stays
    within [2^63], it writes one chunk of [CHUNK_SIZE] samples per
    observation of the stop flag found clear, advances the counter by
    [CHUNK_SIZE] each time, and leaves at the first observation that finds
    the flag set.  From the initial state that is [2^53] chunks, some six
    million years of sound. *)
Theorem siren_audio_loop_passes (np_sin : R -> R)
  (seen : list Alarm.Globals) (st : Alarm.SynthState)
  (sink : list (list R)) :
  (Np.int64_min <= Alarm.sample_cnt st)%Z ->
  (Alarm.sample_cnt st
   + Z.of_nat Alarm.CHUNK_SIZE * Z.of_nat (passes seen)
   <= Np.int64_max + 1)%Z ->
  exists chunks st',
    Siren.audio_loop np_sin seen st sink =
      (if (passes seen <? length seen)%nat then Alarm.Exited
       else Alarm.Running,
       st', sink ++ chunks) /\
    length chunks = passes seen /\
    Forall (fun c => length c = Alarm.CHUNK_SIZE) chunks /\
    Alarm.sample_cnt st' =
      (Alarm.sample_cnt st
       + Z.of_nat Alarm.CHUNK_SIZE * Z.of_nat (passes seen))%Z.
Proof.
  revert st sink. induction seen as [ | g seen IH ]; intros st sink Hlo Hhi.
  - exists [], st. simpl. rewrite app_nil_r. repeat split; [ constructor | lia ].
  - cbn [Siren.audio_loop passes length] in *.
    destruct (Alarm._stop_audio g) eqn:Hstop.
    + exists [], st. cbn [Nat.ltb Nat.leb]. rewrite app_nil_r.
      repeat split; [ constructor | lia ].
    + change Alarm.CHUNK_SIZE with (S 1023) in *.
      destruct (siren_chunk_returns np_sin g st 1023)
        as (samples & p & -> & Hlen); [ lia | ].
      set (st1 := {| Alarm.phase := p;
                     Alarm.sample_cnt :=
                       (Alarm.sample_cnt st + Z.of_nat (S 1023))%Z |}).
      destruct (IH st1 (sink ++ [samples]))
        as (chunks & st' & Hloop & Hlenc & Hall & Hcnt);
        [ unfold st1; cbn [Alarm.sample_cnt]; lia
        | unfold st1; cbn [Alarm.sample_cnt]; lia | ].
      exists (samples :: chunks), st'.
      rewrite Hloop, <- app_assoc. repeat split.
      * simpl. now rewrite Hlenc.
      * constructor; [ exact Hlen | exact Hall ].
      * rewrite Hcnt. unfold st1. cbn [Alarm.sample_cnt]. lia.
Qed.

Lemma siren_audio_loop_passes_witness :
  exists chunks st',
    Siren.audio_loop rounded_sin [full_volume; muted] fresh [] =
      (if (passes [full_volume; muted] <? length [full_volume; muted])%nat
       then Alarm.Exited else Alarm.Running,
       st', [] ++ chunks) /\
    length chunks = passes [full_volume; muted] /\
    Forall (fun c => length c = Alarm.CHUNK_SIZE) chunks /\
    Alarm.sample_cnt st' =
      (Alarm.sample_cnt fresh
       + Z.of_nat Alarm.CHUNK_SIZE
         * Z.of_nat (passes [full_volume; muted]))%Z.
Proof.
  apply (siren_audio_loop_passes rounded_sin [full_volume; muted] fresh []).
  - unfold Np.int64_min. simpl. lia.
  - unfold Np.int64_max. simpl. lia.
Defined.

(** ** The blinker *)

Lemma alternation_two (n : nat) :
  alternation (2 + n) = HIGH :: LOW :: alternation n.
Proof. reflexivity. Qed.

Lemma blink_loop_stops (fuel : nat) :
  forall k looks written event,
    (forall j, (j < k)%nat -> event (looks + j)%nat = false) ->
    event (looks + k)%nat = true ->
    (k / 3 < fuel)%nat ->
    Blink.blink_loop event fuel looks written =
    Blink.Stopped (S (looks + k)) (written ++ alternation (k - k / 3)).
Proof.
  induction fuel as [ | fuel IH ]; intros k looks written event Hclear Hset Hfuel;
    [ lia | ].
  cbn [Blink.blink_loop].
  destruct k as [ | [ | [ | k ] ] ].
  - rewrite Nat.add_0_r in Hset. rewrite Hset. simpl.
    now rewrite Nat.add_0_r, app_nil_r.
  - generalize (Hclear 0%nat ltac:(lia)). rewrite Nat.add_0_r. intros ->.
    rewrite Nat.add_1_r in Hset. rewrite Hset.
    now rewrite Nat.add_1_r.
  - generalize (Hclear 0%nat ltac:(lia)). rewrite Nat.add_0_r. intros ->.
    generalize (Hclear 1%nat ltac:(lia)). rewrite Nat.add_1_r. intros ->.
    replace (looks + 2)%nat with (S (S looks)) in * by lia. rewrite Hset.
    simpl. now rewrite <- app_assoc.
  - generalize (Hclear 0%nat ltac:(lia)). rewrite Nat.add_0_r. intros ->.
    generalize (Hclear 1%nat ltac:(lia)). rewrite Nat.add_1_r. intros ->.
    generalize (Hclear 2%nat ltac:(lia)).
    replace (looks + 2)%nat with (S (S looks)) by lia. intros ->.
    rewrite (IH k).
    + replace (S (S (S k)) - S (S (S k)) / 3)%nat with (2 + (k - k / 3))%nat.
      * rewrite alternation_two, <- !app_assoc. simpl.
        do 2 f_equal. lia.
      * assert (H3 : (S (S (S k)) / 3 = S (k / 3))%nat).
        { change (S (S (S k))) with (3 + k)%nat.
          replace (3 + k)%nat with (k + 1 * 3)%nat by lia.
          rewrite Nat.div_add by lia. lia. }
        rewrite H3. assert (k / 3 <= k)%nat by (apply Nat.Div0.div_le_upper_bound; lia).
        lia.
    + intros j Hj. replace (S (S (S looks)) + j)%nat with (looks + (3 + j))%nat by lia.
      apply Hclear. lia.
    + replace (S (S (S looks)) + k)%nat with (looks + S (S (S k)))%nat by lia.
      exact Hset.
    + assert (H3 : (S (S (S k)) / 3 = S (k / 3))%nat).
      { replace (S (S (S k))) with (k + 1 * 3)%nat by lia.
        rewrite Nat.div_add by lia. lia. }
      lia.
Qed.

(** X15. Once the stop event is found set, on the [k]-th look at it and
    not before, the blinker leaves its loop having looked no further; the
    levels it has written to the LED are HIGH and LOW in turn, two per
    whole pass, followed by the LOW of the [finally] block: the LED is left
    off wherever in the cycle the stop came. *)
Theorem blink_stops (event : nat -> bool) (k : nat) :
  (forall j, (j < k)%nat -> event j = false) ->
  event k = true ->
  forall fuel, (k / 3 < fuel)%nat ->
    Blink.blink event fuel =
    Blink.Stopped (S k) (alternation (k - k / 3) ++ [LOW]).
Proof.
  intros Hclear Hset fuel Hfuel. unfold Blink.blink.
  rewrite (blink_loop_stops fuel k 0 [] event); [ reflexivity | | | ];
    assumption.
Qed.

Lemma blink_stops_witness :
  Blink.blink (fun j => Nat.leb 4 j) 2 =
  Blink.Stopped (S 4) (alternation (4 - 4 / 3) ++ [LOW]).
Proof.
  apply (blink_stops (fun j => Nat.leb 4 j) 4).
  - intros j Hj. apply Nat.leb_gt. exact Hj.
  - reflexivity.
  - simpl. lia.
Defined.
